(** * Verification of the [non_topologically_sorted_functions] lint

    Shallow embedding of
    [examples/restriction/non_topologically_sorted_functions/src/lib.rs].

    - [LocalDefId] is a [nat]; a [DefId] is a crate number and an index,
      local when the crate is [0] ([DefId::as_local]).
    - The resolved HIR seen by [Finder] is an [Expr] tree whose paths carry
      the result of [qpath_res].
    - [HashMap<LocalDefId, FnMeta>] is a [gmap], [HashSet<(LocalDefId,
      LocalDefId)>] a [gset].  The iteration order of a [HashSet] is not
      specified: [check_mod] takes it as an argument [hash_iter], any
      enumeration of the set's elements.
    - The [expect] in [find_violations] is modelled by the [option] monad:
      [None] is a panic. *)

From stdpp Require Import base gmap sets list sorting strings.
#[local] Set Warnings "-register-all".

Abbreviation LocalDefId := nat.
Abbreviation BodyId := nat.

(** ** HIR *)

Record DefId := { krate : nat; index : LocalDefId }.

(** [DefId::as_local]: the local crate is crate [0]. *)
Definition as_local (d : DefId) : option LocalDefId :=
  if Nat.eqb (krate d) 0 then Some (index d) else None.

(** [Res]: only [Res::Def] matters to the lint; the other variants are
    collapsed into [NonDef]. *)
Inductive Res :=
| Def (def_id : DefId)
| NonDef.

(** [ExprKind]: a call, a path (already resolved), a closure (a nested
    body), and every other expression with its sub-expressions in the
    order [walk_expr] visits them. *)
Inductive Expr :=
| Call (callee : Expr) (args : list Expr)
| Path (res : Res)
| Closure (body : Expr)
| OtherExpr (subexprs : list Expr).

Record Span := { lo : nat; hi : nat }.

Inductive ItemKind :=
| Fn (body : BodyId)
| OtherItem.

Record Item := { owner_id : LocalDefId; kind : ItemKind; item_span : Span }.

(** A module is its list of items, in [module.item_ids] order. *)
Abbreviation Mod := (list Item).

(** The parts of [LateContext] the lint uses: [tcx.hir_body] and
    [tcx.def_path_str]. *)
Record LateContext := {
  hir_body : BodyId -> Expr;
  def_path_str : LocalDefId -> string
}.

Record FnMeta := { position_number : nat; span : Span }.

(** ** Call extractor: [Finder] *)

Record Finder := { seen : gset LocalDefId; order : list LocalDefId }.

(** The test at the top of [Finder::visit_expr]. *)
Definition visit_call (local_defs : gmap LocalDefId FnMeta) (ex : Expr)
    (f : Finder) : Finder :=
  match ex with
  | Call (Path (Def def_id)) _ =>
      match as_local def_id with
      | Some local_def_id =>
          if decide (is_Some (local_defs !! local_def_id)
                     ∧ local_def_id ∉ seen f)
          then {| seen := {[local_def_id]} ∪ seen f;
                  order := order f ++ [local_def_id] |}
          else f
      | None => f
      end
  | _ => f
  end.

(** [Finder::visit_expr] followed by [intravisit::walk_expr].  The visitor
    keeps the default [NestedFilter] ([nested_filter::None]), so
    [visit_nested_body] does nothing and a closure body is not entered. *)
Fixpoint visit_expr (local_defs : gmap LocalDefId FnMeta) (f : Finder)
    (ex : Expr) : Finder :=
  let f := visit_call local_defs ex f in
  match ex with
  | Call callee args =>
      fold_left (visit_expr local_defs) args (visit_expr local_defs f callee)
  | Path _ => f
  | Closure _ => f
  | OtherExpr subexprs => fold_left (visit_expr local_defs) subexprs f
  end.

(** ** The lint pass *)

(** [find_caller_body]: the body of the first [fn] item owned by
    [caller_id] ([break] at the first match). *)
Fixpoint find_caller_body (module : Mod) (caller_id : LocalDefId)
    : option BodyId :=
  match module with
  | [] => None
  | item :: rest =>
      match kind item with
      | Fn body =>
          if Nat.eqb (owner_id item) caller_id then Some body
          else find_caller_body rest caller_id
      | OtherItem => find_caller_body rest caller_id
      end
  end.

Definition collect_callees_in_body (cx : LateContext) (body_id : BodyId)
    (local_defs : gmap LocalDefId FnMeta) : list LocalDefId :=
  order (visit_expr local_defs {| seen := ∅; order := [] |}
           (hir_body cx body_id)).

Abbreviation Constraints := (gset (LocalDefId * LocalDefId)).

Definition build_caller_callee_constraint (caller_id : LocalDefId)
    (callees : list LocalDefId) (must_come_before : Constraints)
    : Constraints :=
  fold_left (fun S callee_id =>
      if decide ((callee_id, caller_id) ∈ S) then S
      else {[(caller_id, callee_id)]} ∪ S)
    callees must_come_before.

(** The two nested index loops.  The out-of-range branch is never taken
    ([i < j < callees.len()]); Rust would panic there. *)
Definition build_multiple_precedence_rule (callees : list LocalDefId)
    (must_come_before : Constraints) : Constraints :=
  fold_left (fun S i =>
      fold_left (fun S j =>
          match callees !! i, callees !! j with
          | Some a, Some b =>
              if decide ((b, a) ∈ S) then S else {[(a, b)]} ∪ S
          | _, _ => S
          end)
        (seq (i + 1) (length callees - (i + 1))) S)
    (seq 0 (length callees)) must_come_before.

Record Violation := {
  idx_first_fn : nat;
  idx_second_fn : nat;
  name_first_fn : string;
  name_second_fn : string;
  id_first_fn : LocalDefId;
  fn_meta : FnMeta
}.

(** The closure given to [filter_map]: [Some None] skips the pair,
    [Some (Some v)] keeps [v], [None] is the panic of [expect]. *)
Definition filter_violation (cx : LateContext)
    (functions : gmap LocalDefId FnMeta) (p : LocalDefId * LocalDefId)
    : option (option Violation) :=
  let '(a, b) := p in
  match functions !! a with
  | None => Some None
  | Some ma =>
      match functions !! b with
      | None => Some None
      | Some mb =>
          let idx_a := position_number ma in
          let idx_b := position_number mb in
          if decide (idx_b < idx_a) then (* idx_a > idx_b *)
            match functions !! a with
            | None => None
            | Some fn_meta =>
                Some (Some {| fn_meta := fn_meta;
                              id_first_fn := a;
                              idx_first_fn := idx_a;
                              idx_second_fn := idx_b;
                              name_first_fn := def_path_str cx a;
                              name_second_fn := def_path_str cx b |})
            end
          else Some None
      end
  end.

(** The comparator given to [sort_by]:
    [ia1.cmp(ia2).then(ib1.cmp(ib2)).then(name_a1.cmp(name_a2))]. *)
Definition cmp_violation (v1 v2 : Violation) : comparison :=
  match Nat.compare (idx_first_fn v1) (idx_first_fn v2) with
  | Eq =>
      match Nat.compare (idx_second_fn v1) (idx_second_fn v2) with
      | Eq => String.compare (name_first_fn v1) (name_first_fn v2)
      | c => c
      end
  | c => c
  end.

Definition violation_le (v1 v2 : Violation) : Prop := cmp_violation v1 v2 ≠ Gt.

#[global] Instance violation_le_dec : RelDecision violation_le.
Proof. intros v1 v2. unfold violation_le. apply _. Defined.

(** [sort_by] is a stable merge sort. *)
Definition find_violations (cx : LateContext)
    (must_come_before : list (LocalDefId * LocalDefId))
    (functions : gmap LocalDefId FnMeta) : option (list Violation) :=
  vs ← mapM (filter_violation cx functions) must_come_before;
  Some (merge_sort violation_le (omap id vs)).

(** One iteration of the collection loop of [check_mod]. *)
Definition collect_step
    (acc : list LocalDefId * gmap LocalDefId FnMeta * nat) (item : Item)
    : list LocalDefId * gmap LocalDefId FnMeta * nat :=
  let '(def_order, functions, idx) := acc in
  match kind item with
  | Fn _ =>
      (def_order ++ [owner_id item],
       <[owner_id item := {| position_number := idx;
                             span := item_span item |}]> functions,
       S idx)
  | OtherItem => (def_order, functions, idx)
  end.

(** The collection loop of [check_mod]. *)
Definition collect_functions (module : Mod)
    : list LocalDefId * gmap LocalDefId FnMeta * nat :=
  fold_left collect_step module ([], ∅, 0).

Definition def_order_of (module : Mod) : list LocalDefId :=
  (collect_functions module).1.1.

Definition functions_of (module : Mod) : gmap LocalDefId FnMeta :=
  (collect_functions module).1.2.

(** One iteration of [for caller_id in def_order]. *)
Definition process_caller (cx : LateContext) (module : Mod)
    (functions : gmap LocalDefId FnMeta) (must_come_before : Constraints)
    (caller_id : LocalDefId) : Constraints :=
  match find_caller_body module caller_id with
  | Some caller_body_id =>
      let callees := collect_callees_in_body cx caller_body_id functions in
      build_multiple_precedence_rule callees
        (build_caller_callee_constraint caller_id callees must_come_before)
  | None => must_come_before
  end.

Definition build_constraints (cx : LateContext) (module : Mod)
    : Constraints :=
  fold_left (process_caller cx module (functions_of module))
    (def_order_of module) ∅.

Record Diagnostic := { lint_span : Span; label : string; help : string }.

Definition diagnostic_of (v : Violation) : Diagnostic :=
  {| lint_span := span (fn_meta v);
     label := "function `" ++ name_first_fn v ++ "` should be defined before `"
              ++ name_second_fn v ++ "`";
     help := "move the function earlier in the module so callers and callee ordering is respected" |}.

(** The reporting loop: a violation is reported when [warned.insert]
    returns [true]. *)
Fixpoint emit_loop (warned : gset LocalDefId) (vs : list Violation)
    : list Violation :=
  match vs with
  | [] => []
  | v :: rest =>
      if decide (id_first_fn v ∈ warned) then emit_loop warned rest
      else v :: emit_loop ({[id_first_fn v]} ∪ warned) rest
  end.

(** What one run of [check_mod] does: the early [return], a panic, or the
    constraint set, the sorted violations and the emitted lints. *)
Inductive CheckModOutcome :=
| EarlyReturn
| Panicked
| Linted (must_come_before : Constraints) (violations : list Violation)
    (lints : list Diagnostic).

Definition check_mod (cx : LateContext)
    (hash_iter : Constraints -> list (LocalDefId * LocalDefId))
    (module : Mod) : CheckModOutcome :=
  let def_order := def_order_of module in
  let functions := functions_of module in
  if decide (length def_order < 2) then EarlyReturn
  else
    let must_come_before := build_constraints cx module in
    match find_violations cx (hash_iter must_come_before) functions with
    | None => Panicked
    | Some violations =>
        Linted must_come_before violations
          (map diagnostic_of (emit_loop ∅ violations))
    end.

Definition emitted_lints (o : CheckModOutcome) : list Diagnostic :=
  match o with
  | Linted _ _ lints => lints
  | _ => []
  end.

(** A valid [HashSet] iteration enumerates each element once. *)
Definition valid_iter
    (hash_iter : Constraints -> list (LocalDefId * LocalDefId)) : Prop :=
  ∀ S, hash_iter S ≡ₚ elements S.

(** The pair [(a, b)] is inverted: both have metadata and [b] comes
    first. *)
Definition inverted (functions : gmap LocalDefId FnMeta)
    (p : LocalDefId * LocalDefId) : bool :=
  match functions !! p.1, functions !! p.2 with
  | Some ma, Some mb => bool_decide (position_number mb < position_number ma)
  | _, _ => false
  end.

(** The functions that must come before a function declared earlier. *)
Definition offending_functions (functions : gmap LocalDefId FnMeta)
    (S : Constraints) : gset LocalDefId :=
  set_map fst (filter (fun p => inverted functions p = true) S).

(** ** Concrete scopes *)

Definition call_fn (id : LocalDefId) : Expr :=
  Call (Path (Def {| krate := 0; index := id |})) [].

Definition fn_item (id : LocalDefId) (body : BodyId) : Item :=
  {| owner_id := id; kind := Fn body; item_span := {| lo := id; hi := id |} |}.

Definition mk_cx (bodies : list Expr) (names : list string) : LateContext :=
  {| hir_body := fun b => default (OtherExpr []) (bodies !! b);
     def_path_str := fun i => default EmptyString (names !! i) |}.

(** Scenario 3 of the spec: [helper2], [helper1], [main] where [main] calls
    [helper1] then [helper2]. *)
Definition scenario3_cx : LateContext :=
  mk_cx [OtherExpr []; OtherExpr []; OtherExpr [call_fn 1; call_fn 0]]
        ["helper2"; "helper1"; "main"]%string.

Definition scenario3 : Mod := [fn_item 0 0; fn_item 1 1; fn_item 2 2].

(** A module declared callers first: [main] calls [helper1] then
    [helper2], and [helper1] calls [helper2]. *)
Definition ordered_cx : LateContext :=
  mk_cx [OtherExpr [call_fn 1; call_fn 2]; OtherExpr [call_fn 2]; OtherExpr []]
        ["main"; "helper1"; "helper2"]%string.

Definition ordered : Mod := [fn_item 0 0; fn_item 1 1; fn_item 2 2].

Example scenario3_lints :
  map label (emitted_lints (check_mod scenario3_cx elements scenario3)) =
  ["function `helper1` should be defined before `helper2`";
   "function `main` should be defined before `helper2`"]%string.
Proof. vm_compute. reflexivity. Qed.

(** ** Generic facts about the loops *)

Lemma fold_left_ind {A B} (P : A -> Prop) (f : A -> B -> A) (l : list B)
    (s : A) :
  P s -> (∀ s x, x ∈ l -> P s -> P (f s x)) -> P (fold_left f l s).
Proof.
  revert s. induction l as [|x l IH]; intros s Hs Hf; simpl; [done|].
  apply IH; [apply Hf; [left|]; done|].
  intros s' y Hy. apply Hf. by right.
Qed.

(** A property that holds after the step at [x] and that every step
    preserves holds at the end. *)
Lemma fold_left_after {A B} (Q : A -> Prop) (f : A -> B -> A) (l : list B)
    (s : A) (x : B) :
  x ∈ l -> (∀ s, Q (f s x)) -> (∀ s y, Q s -> Q (f s y)) ->
  Q (fold_left f l s).
Proof.
  revert s. induction l as [|y l IH]; intros s Hx Hstep Hpres; simpl.
  - by apply elem_of_nil in Hx.
  - apply elem_of_cons in Hx as [->|Hx].
    + apply (fold_left_ind Q); [done|]. intros; by apply Hpres.
    + by apply IH.
Qed.

(** ** Constraint builder *)

(** Both builders only ever make this step: keep the set, or add [(a, b)]
    when [(b, a)] is absent ("first writer wins"). *)
Definition guarded_step (S S' : Constraints) : Prop :=
  S' = S ∨ (∃ a b, ((b, a) ∉ S) ∧ S' = {[(a, b)]} ∪ S).

Lemma guarded_insert (S : Constraints) a b :
  guarded_step S (if decide ((b, a) ∈ S) then S else {[(a, b)]} ∪ S).
Proof. case_decide; [by left|right; eauto]. Qed.

Lemma build_caller_callee_constraint_steps caller callees S :
  rtc guarded_step S (build_caller_callee_constraint caller callees S).
Proof.
  unfold build_caller_callee_constraint. apply fold_left_ind; [done|].
  intros s x _ Hs. eapply rtc_r; [exact Hs|]. apply guarded_insert.
Qed.

Lemma build_multiple_precedence_rule_steps callees S :
  rtc guarded_step S (build_multiple_precedence_rule callees S).
Proof.
  unfold build_multiple_precedence_rule. apply fold_left_ind; [done|]. intros s i _ Hs.
  apply fold_left_ind; [done|]. intros s' j _ Hs'.
  destruct (callees !! i), (callees !! j); try done.
  eapply rtc_r; [exact Hs'|]. apply guarded_insert.
Qed.

Lemma process_caller_steps cx module functions S caller :
  rtc guarded_step S (process_caller cx module functions S caller).
Proof.
  unfold process_caller. destruct (find_caller_body _ _); [|done].
  etrans; [apply build_caller_callee_constraint_steps|].
  apply build_multiple_precedence_rule_steps.
Qed.

Lemma process_callers_steps cx module functions callers S :
  rtc guarded_step S (fold_left (process_caller cx module functions) callers S).
Proof.
  apply fold_left_ind; [done|]. intros s x _ Hs.
  etrans; [exact Hs|]. apply process_caller_steps.
Qed.

Lemma guarded_steps_preserve (P : Constraints -> Prop) S S' :
  (∀ s s', P s -> guarded_step s s' -> P s') ->
  rtc guarded_step S S' -> P S -> P S'.
Proof. intros Hstep Hrtc. induction Hrtc; eauto. Qed.

Lemma guarded_step_subseteq S S' : guarded_step S S' -> S ⊆ S'.
Proof. intros [->|(a & b & _ & ->)]; set_solver. Qed.

Lemma guarded_steps_subseteq S S' : rtc guarded_step S S' -> S ⊆ S'.
Proof.
  intros H. induction H as [|x y z Hxy _ IH]; [done|].
  apply guarded_step_subseteq in Hxy. set_solver.
Qed.

(** The invariant of the constraint set. *)
Definition no_contradiction (S : Constraints) : Prop :=
  ∀ x y, x ≠ y -> ¬ ((x, y) ∈ S ∧ (y, x) ∈ S).

Lemma guarded_step_no_contradiction S S' :
  no_contradiction S -> guarded_step S S' -> no_contradiction S'.
Proof.
  intros Hinv [->|(a & b & Hba & ->)]; [done|].
  intros x y Hxy [Hin1 Hin2].
  apply elem_of_union in Hin1 as [Hin1|Hin1];
  apply elem_of_union in Hin2 as [Hin2|Hin2].
  all: repeat match goal with
              | H : _ ∈ {[_]} |- _ => apply elem_of_singleton in H
              end; simplify_eq; try done.
  by apply (Hinv x y).
Qed.

(** Once [(x, y)] is in the set and [(y, x)] is not, it stays so. *)
Lemma guarded_step_keeps_winner x y S S' :
  (x, y) ∈ S ∧ (y, x) ∉ S -> guarded_step S S' -> (x, y) ∈ S' ∧ (y, x) ∉ S'.
Proof.
  intros [Hxy Hyx] [->|(a & b & Hba & ->)]; [done|]. split; [set_solver|].
  intros Hin. apply elem_of_union in Hin as [Hin|Hin]; [|done].
  apply elem_of_singleton in Hin. simplify_eq. done.
Qed.

(** ** Scope collector *)

Definition is_fn (item : Item) : bool :=
  match kind item with Fn _ => true | OtherItem => false end.

Lemma collect_def_order module acc :
  (fold_left collect_step module acc).1.1 =
  acc.1.1 ++ map owner_id (List.filter is_fn module).
Proof.
  revert acc. induction module as [|item module IH]; intros [[d fs] i]; simpl.
  - by rewrite app_nil_r.
  - rewrite IH. unfold is_fn. destruct (kind item); simpl; [|done].
    by rewrite <-app_assoc.
Qed.

Lemma def_order_of_spec module :
  def_order_of module = map owner_id (List.filter is_fn module).
Proof. unfold def_order_of, collect_functions. by rewrite collect_def_order. Qed.

Definition collect_inv (acc : list LocalDefId * gmap LocalDefId FnMeta * nat)
    : Prop :=
  let '(d, fs, idx) := acc in
  (∀ k, is_Some (fs !! k) <-> k ∈ d) ∧
  (∀ k m, fs !! k = Some m -> position_number m < idx) ∧
  (∀ k1 k2 m1 m2, fs !! k1 = Some m1 -> fs !! k2 = Some m2 ->
     position_number m1 = position_number m2 -> k1 = k2).

Lemma collect_step_inv acc item :
  collect_inv acc -> collect_inv (collect_step acc item).
Proof.
  destruct acc as [[d fs] idx]. simpl. intros (Hdom & Hlt & Hinj).
  destruct (kind item); simpl; [|done]. split_and!.
  - intros k. rewrite elem_of_app, list_elem_of_singleton.
    destruct (decide (owner_id item = k)) as [<-|Hne].
    + rewrite lookup_insert_eq. split; [by right|by eexists].
    + rewrite lookup_insert_ne by done. rewrite Hdom. naive_solver.
  - intros k m. destruct (decide (owner_id item = k)) as [<-|Hne].
    + rewrite lookup_insert_eq. intros [= <-]. simpl. lia.
    + rewrite lookup_insert_ne by done. intros Hk. specialize (Hlt _ _ Hk). lia.
  - intros k1 k2 m1 m2.
    destruct (decide (owner_id item = k1)) as [<-|Hne1];
    destruct (decide (owner_id item = k2)) as [<-|Hne2]; try done.
    + rewrite lookup_insert_eq, lookup_insert_ne by done.
      intros [= <-] Hk2 Hpos. specialize (Hlt _ _ Hk2). simpl in Hpos. lia.
    + rewrite lookup_insert_ne, lookup_insert_eq by done.
      intros Hk1 [= <-] Hpos. specialize (Hlt _ _ Hk1). simpl in Hpos. lia.
    + rewrite !lookup_insert_ne by done. apply Hinj.
Qed.

Lemma collect_functions_inv module : collect_inv (collect_functions module).
Proof.
  unfold collect_functions. apply fold_left_ind.
  - simpl. split_and!; [|done|done]. intros k. rewrite lookup_empty.
    split; [intros []; done|intros Hk; by apply elem_of_nil in Hk].
  - intros acc item _. apply collect_step_inv.
Qed.

(** Every function of the scope has metadata, and nothing else has. *)
Lemma functions_of_dom module k :
  is_Some (functions_of module !! k) <-> k ∈ def_order_of module.
Proof.
  unfold functions_of, def_order_of.
  pose proof (collect_functions_inv module) as Hinv.
  destruct (collect_functions module) as [[d fs] idx]. apply Hinv.
Qed.

(** Distinct functions have distinct positions. *)
Lemma functions_of_inj module k1 k2 m1 m2 :
  functions_of module !! k1 = Some m1 -> functions_of module !! k2 = Some m2 ->
  position_number m1 = position_number m2 -> k1 = k2.
Proof.
  unfold functions_of.
  pose proof (collect_functions_inv module) as Hinv.
  destruct (collect_functions module) as [[d fs] idx]. apply Hinv.
Qed.

Lemma find_caller_body_fn module id :
  id ∈ map owner_id (List.filter is_fn module) ->
  is_Some (find_caller_body module id).
Proof.
  induction module as [|item module IH]; simpl; intros Hin.
  - by apply elem_of_nil in Hin.
  - unfold is_fn in Hin. destruct (kind item) eqn:Hk; simpl in Hin.
    + destruct (Nat.eqb_spec (owner_id item) id); [by eexists|].
      apply elem_of_cons in Hin as [->|Hin]; [done|]. by apply IH.
    + by apply IH.
Qed.

(** ** Call extractor *)

(** The local identity a call expression resolves to, when its callee is
    a path resolved to a local definition. *)
Definition call_target (ex : Expr) : option LocalDefId :=
  match ex with
  | Call (Path (Def def_id)) _ => as_local def_id
  | _ => None
  end.

(** Every local identity called directly, in the order the visitor meets
    the call expressions (closure bodies are not entered). *)
Fixpoint call_targets (ex : Expr) : list LocalDefId :=
  match call_target ex with Some x => [x] | None => [] end ++
  match ex with
  | Call callee args => call_targets callee ++ flat_map call_targets args
  | Path _ | Closure _ => []
  | OtherExpr subexprs => flat_map call_targets subexprs
  end.

(** Spec side of the call extractor: the distinct elements of [l] not in
    [seen], each kept at its first occurrence. *)
Fixpoint first_mentions (seen : gset LocalDefId) (l : list LocalDefId)
    : list LocalDefId :=
  match l with
  | [] => []
  | x :: rest =>
      if decide (x ∈ seen) then first_mentions seen rest
      else x :: first_mentions ({[x]} ∪ seen) rest
  end.

Lemma Expr_nested_ind (P : Expr -> Prop) :
  (∀ callee args, P callee -> Forall P args -> P (Call callee args)) ->
  (∀ res, P (Path res)) ->
  (∀ body, P (Closure body)) ->
  (∀ subexprs, Forall P subexprs -> P (OtherExpr subexprs)) ->
  ∀ ex, P ex.
Proof.
  intros Hcall Hpath Hclos Hother. fix IH 1. intros [callee args|res|body|subs].
  - apply Hcall; [apply IH|]. induction args as [|e args IHa]; constructor; auto.
  - apply Hpath.
  - apply Hclos.
  - apply Hother. induction subs as [|e subs IHs]; constructor; auto.
Qed.

Lemma first_mentions_app s l1 l2 :
  first_mentions s (l1 ++ l2) =
  first_mentions s l1 ++ first_mentions (list_to_set (first_mentions s l1) ∪ s) l2.
Proof.
  revert s. induction l1 as [|x l1 IH]; intros s; simpl.
  - f_equal. set_solver.
  - case_decide; [apply IH|]. simpl. rewrite IH. do 3 f_equal. set_solver.
Qed.

Lemma first_mentions_spec s l :
  NoDup (first_mentions s l) ∧
  (∀ x, x ∈ first_mentions s l <-> x ∈ l ∧ x ∉ s).
Proof.
  revert s. induction l as [|y l IH]; intros s; simpl.
  - split; [constructor|]. intros x. rewrite elem_of_nil. tauto.
  - case_decide as Hy.
    + destruct (IH s) as [Hnd Hin]. split; [done|]. intros x.
      rewrite Hin, elem_of_cons. split; [tauto|].
      intros [[->|Hx] Hs]; [done|tauto].
    + destruct (IH ({[y]} ∪ s)) as [Hnd Hin]. split.
      * constructor; [|done]. rewrite Hin, elem_of_union, elem_of_singleton. tauto.
      * intros x. rewrite elem_of_cons, Hin, elem_of_cons, elem_of_union, elem_of_singleton.
        split; [intros [->|[Hx Hs]]; tauto|].
        intros [[->|Hx] Hs]; [by left|].
        destruct (decide (x = y)) as [->|Hne]; [by left|right; tauto].
Qed.

(** The finder after it has recorded the identities [r]. *)
Definition finder_after (f : Finder) (r : list LocalDefId) : Finder :=
  {| seen := list_to_set r ∪ seen f; order := order f ++ r |}.

Lemma seen_finder_after f r : seen (finder_after f r) = list_to_set r ∪ seen f.
Proof. done. Qed.

Lemma finder_after_app f r1 r2 :
  finder_after (finder_after f r1) r2 = finder_after f (r1 ++ r2).
Proof.
  unfold finder_after. simpl. f_equal; [set_solver|by rewrite app_assoc].
Qed.

Section Finder_spec.
Variable local_defs : gmap LocalDefId FnMeta.

Definition known_targets (l : list LocalDefId) : list LocalDefId :=
  filter (fun x => is_Some (local_defs !! x)) l.

Definition finder_spec (ex : Expr) : Prop :=
  ∀ f, visit_expr local_defs f ex =
       finder_after f (first_mentions (seen f) (known_targets (call_targets ex))).

Lemma visit_call_spec ex f :
  visit_call local_defs ex f =
  finder_after f (first_mentions (seen f)
    (known_targets (match call_target ex with Some x => [x] | None => [] end))).
Proof.
  assert (Hnil : ∀ f, f = finder_after f []).
  { intros [s o]. unfold finder_after. simpl. f_equal; [set_solver|by rewrite app_nil_r]. }
  destruct ex as [[| [d|] |body|subs] args|res|body|subs]; simpl; try apply Hnil.
  destruct (as_local d) as [x|]; simpl; [|apply Hnil].
  unfold known_targets. rewrite filter_cons, filter_nil.
  destruct (decide (is_Some (local_defs !! x))) as [Hx|Hx]; simpl.
  - destruct (decide (x ∈ seen f)) as [Hs|Hs].
    + destruct (decide (is_Some (local_defs !! x) ∧ x ∉ seen f)) as [[_ ?]|_];
        [done|apply Hnil].
    + destruct (decide (is_Some (local_defs !! x) ∧ x ∉ seen f)) as [_|Hc];
        [|tauto].
      destruct f as [s o]. unfold finder_after. simpl. f_equal. set_solver.
  - destruct (decide (is_Some (local_defs !! x) ∧ x ∉ seen f)) as [[? _]|_];
      [done|apply Hnil].
Qed.

Lemma fold_visit_spec (es : list Expr) :
  Forall finder_spec es ->
  ∀ f, fold_left (visit_expr local_defs) es f =
       finder_after f (first_mentions (seen f)
         (known_targets (flat_map call_targets es))).
Proof.
  induction 1 as [|e es He Hes IH]; intros f; simpl.
  - destruct f as [s o]. unfold finder_after. simpl. f_equal; [set_solver|by rewrite app_nil_r].
  - rewrite He, IH. unfold known_targets. rewrite filter_app, first_mentions_app.
    rewrite finder_after_app. done.
Qed.

Lemma visit_expr_spec ex : finder_spec ex.
Proof.
  induction ex as [callee args Hcallee Hargs|res|body|subs Hsubs]
    using Expr_nested_ind; intros f; cbn [visit_expr call_targets];
    rewrite visit_call_spec; unfold known_targets;
    rewrite ?filter_app, ?first_mentions_app, ?app_nil_r.
  - rewrite Hcallee, fold_visit_spec by done. rewrite !seen_finder_after.
    rewrite !finder_after_app. unfold known_targets. reflexivity.
  - done.
  - done.
  - rewrite fold_visit_spec by done. rewrite !seen_finder_after.
    rewrite !finder_after_app. unfold known_targets. reflexivity.
Qed.
End Finder_spec.

Lemma collect_callees_props cx body_id local_defs :
  collect_callees_in_body cx body_id local_defs =
    first_mentions ∅ (known_targets local_defs (call_targets (hir_body cx body_id))) ∧
  NoDup (collect_callees_in_body cx body_id local_defs) ∧
  (∀ x, x ∈ collect_callees_in_body cx body_id local_defs <->
        x ∈ call_targets (hir_body cx body_id) ∧ is_Some (local_defs !! x)).
Proof.
  assert (Heq : collect_callees_in_body cx body_id local_defs =
    first_mentions ∅ (known_targets local_defs (call_targets (hir_body cx body_id)))).
  { unfold collect_callees_in_body. rewrite visit_expr_spec. done. }
  rewrite Heq. destruct (first_mentions_spec ∅
    (known_targets local_defs (call_targets (hir_body cx body_id)))) as [Hnd Hin].
  split_and!; [done|done|]. intros x. rewrite Hin. unfold known_targets.
  rewrite list_elem_of_filter. set_solver.
Qed.

Lemma collect_callees_known cx body_id local_defs x :
  x ∈ collect_callees_in_body cx body_id local_defs -> is_Some (local_defs !! x).
Proof. intros Hx. apply collect_callees_props in Hx. tauto. Qed.

Lemma collect_callees_NoDup cx body_id local_defs :
  NoDup (collect_callees_in_body cx body_id local_defs).
Proof. apply collect_callees_props. Qed.

(** A body that calls [1], [2], [1] again, an extern function, a closure
    calling [3], and [4] which is not a sibling. *)
Example collect_callees_example :
  collect_callees_in_body
    (mk_cx [OtherExpr [call_fn 1; Call (Path NonDef) [call_fn 2];
                       call_fn 1;
                       Call (Path (Def {| krate := 7; index := 3 |})) [];
                       Closure (call_fn 3); call_fn 4]] [])
    0 (functions_of [fn_item 0 0; fn_item 1 1; fn_item 2 2; fn_item 3 3])
  = [1; 2].
Proof. vm_compute. reflexivity. Qed.

(** ** Violation selector *)

Definition violation_of (cx : LateContext) (functions : gmap LocalDefId FnMeta)
    (p : LocalDefId * LocalDefId) : option Violation :=
  match filter_violation cx functions p with Some (Some v) => Some v | _ => None end.

(** The [expect] never fires: [functions.get(&a)] has just succeeded. *)
Lemma filter_violation_no_panic cx functions p :
  filter_violation cx functions p = Some (violation_of cx functions p).
Proof.
  unfold violation_of, filter_violation. destruct p as [a b].
  destruct (functions !! a) eqn:Ha; [|done].
  destruct (functions !! b); [|done].
  case_decide; done.
Qed.

Lemma violation_of_spec cx functions a b v :
  violation_of cx functions (a, b) = Some v <->
  ∃ ma mb, functions !! a = Some ma ∧ functions !! b = Some mb ∧
    position_number mb < position_number ma ∧
    v = {| idx_first_fn := position_number ma;
           idx_second_fn := position_number mb;
           name_first_fn := def_path_str cx a;
           name_second_fn := def_path_str cx b;
           id_first_fn := a;
           fn_meta := ma |}.
Proof.
  unfold violation_of, filter_violation.
  destruct (functions !! a) as [ma|] eqn:Ha; [|naive_solver].
  destruct (functions !! b) as [mb|] eqn:Hb; [|naive_solver].
  case_decide as Hlt; rewrite ?Ha; split.
  - intros [= <-]. eauto 10.
  - intros (? & ? & [= <-] & [= <-] & _ & ->). done.
  - done.
  - intros (? & ? & [= <-] & [= <-] & ? & _). lia.
Qed.

Lemma mapM_filter_violation cx functions l :
  mapM (filter_violation cx functions) l = Some (map (violation_of cx functions) l).
Proof.
  induction l as [|p l IH]; [done|]. simpl.
  rewrite filter_violation_no_panic, IH. done.
Qed.

Lemma omap_id_map {A B} (g : A -> option B) (l : list A) :
  omap id (map g l) = omap g l.
Proof.
  apply list_omap_ext. induction l as [|x l IH]; simpl; constructor; done.
Qed.

Lemma find_violations_eq cx l functions :
  find_violations cx l functions =
  Some (merge_sort violation_le (omap (violation_of cx functions) l)).
Proof.
  unfold find_violations. rewrite mapM_filter_violation, <-omap_id_map.
  reflexivity.
Qed.

Lemma find_violations_elem cx l functions vs v :
  find_violations cx l functions = Some vs ->
  v ∈ vs <-> ∃ p, p ∈ l ∧ violation_of cx functions p = Some v.
Proof.
  rewrite find_violations_eq. intros [= <-].
  rewrite merge_sort_Permutation, list_elem_of_omap. naive_solver.
Qed.

(** ** The sort order *)

Lemma string_compare_le_trans s1 s2 s3 :
  String.compare s1 s2 ≠ Gt -> String.compare s2 s3 ≠ Gt ->
  String.compare s1 s3 ≠ Gt.
Proof.
  revert s2 s3. induction s1 as [|c1 s1 IH]; intros [|c2 s2] [|c3 s3];
    simpl; try done.
  unfold Ascii.compare.
  destruct (N.compare_spec (Ascii.N_of_ascii c1) (Ascii.N_of_ascii c2));
  destruct (N.compare_spec (Ascii.N_of_ascii c2) (Ascii.N_of_ascii c3));
  destruct (N.compare_spec (Ascii.N_of_ascii c1) (Ascii.N_of_ascii c3));
  intros Hle1 Hle2; try congruence; try lia.
  eauto.
Qed.

Lemma cmp_violation_antisym v1 v2 :
  cmp_violation v2 v1 = CompOpp (cmp_violation v1 v2).
Proof.
  unfold cmp_violation.
  rewrite (Nat.compare_antisym (idx_first_fn v1)),
    (Nat.compare_antisym (idx_second_fn v1)),
    (String.compare_antisym (name_first_fn v2)).
  destruct (Nat.compare (idx_first_fn v1) (idx_first_fn v2)); try done.
  destruct (Nat.compare (idx_second_fn v1) (idx_second_fn v2)); done.
Qed.

#[global] Instance violation_le_total : Total violation_le.
Proof.
  intros v1 v2. unfold violation_le. rewrite (cmp_violation_antisym v1 v2).
  destruct (cmp_violation v1 v2); simpl; [left|left|right]; done.
Qed.

#[global] Instance violation_le_trans : Transitive violation_le.
Proof.
  intros x y z. unfold violation_le, cmp_violation.
  destruct (Nat.compare_spec (idx_first_fn x) (idx_first_fn y));
  destruct (Nat.compare_spec (idx_first_fn y) (idx_first_fn z));
  destruct (Nat.compare_spec (idx_first_fn x) (idx_first_fn z));
  intros Hle1 Hle2; try congruence; try lia;
  revert Hle1 Hle2;
  destruct (Nat.compare_spec (idx_second_fn x) (idx_second_fn y));
  destruct (Nat.compare_spec (idx_second_fn y) (idx_second_fn z));
  destruct (Nat.compare_spec (idx_second_fn x) (idx_second_fn z));
  intros Hle1 Hle2; try congruence; try lia.
  eapply string_compare_le_trans; eassumption.
Qed.

Lemma violation_le_both v1 v2 :
  violation_le v1 v2 -> violation_le v2 v1 ->
  idx_first_fn v1 = idx_first_fn v2 ∧ idx_second_fn v1 = idx_second_fn v2.
Proof.
  unfold violation_le. rewrite (cmp_violation_antisym v1 v2).
  intros H1 H2. assert (Heq : cmp_violation v1 v2 = Eq)
    by (destruct (cmp_violation v1 v2); simpl in *; congruence).
  unfold cmp_violation in Heq.
  destruct (Nat.compare_spec (idx_first_fn v1) (idx_first_fn v2)); try done.
  destruct (Nat.compare_spec (idx_second_fn v1) (idx_second_fn v2)); done.
Qed.

(** ** What the builders add *)

Lemma build_caller_callee_constraint_elem caller callees S p :
  p ∈ build_caller_callee_constraint caller callees S ->
  p ∈ S ∨ (p.1 = caller ∧ p.2 ∈ callees).
Proof.
  unfold build_caller_callee_constraint.
  apply (fold_left_ind (fun s => p ∈ s -> p ∈ S ∨ (p.1 = caller ∧ p.2 ∈ callees))).
  { by left. }
  intros s e He IH. case_decide; [done|].
  rewrite elem_of_union, elem_of_singleton. intros [->|Hp]; [|by apply IH].
  right. done.
Qed.

Lemma build_multiple_precedence_rule_elem callees S p :
  p ∈ build_multiple_precedence_rule callees S ->
  p ∈ S ∨ ∃ i j, i < j ∧ callees !! i = Some p.1 ∧ callees !! j = Some p.2.
Proof.
  unfold build_multiple_precedence_rule.
  set (Q := fun s : Constraints => p ∈ s ->
    p ∈ S ∨ ∃ i j, i < j ∧ callees !! i = Some p.1 ∧ callees !! j = Some p.2).
  apply (fold_left_ind Q); [by left|]. intros s i _ IHi.
  apply (fold_left_ind Q); [done|]. intros s' j Hj IHj.
  apply elem_of_seq in Hj.
  destruct (callees !! i) as [a|] eqn:Ha, (callees !! j) as [b|] eqn:Hb; try done.
  case_decide; [done|]. unfold Q.
  rewrite elem_of_union, elem_of_singleton. intros [->|Hp]; [|by apply IHj].
  right. exists i, j. simpl. split_and!; [lia|done|done].
Qed.

Lemma build_multiple_precedence_rule_decides callees S i j a b :
  i < j -> callees !! i = Some a -> callees !! j = Some b ->
  (a, b) ∈ build_multiple_precedence_rule callees S ∨
  (b, a) ∈ build_multiple_precedence_rule callees S.
Proof.
  intros Hij Ha Hb. unfold build_multiple_precedence_rule.
  set (Q := fun s : Constraints => (a, b) ∈ s ∨ (b, a) ∈ s).
  assert (Hinner : ∀ k s y, Q s ->
    Q (match callees !! k, callees !! y with
       | Some a, Some b => if decide ((b, a) ∈ s) then s else {[(a, b)]} ∪ s
       | _, _ => s
       end)).
  { intros k s y Hs. destruct (callees !! k), (callees !! y); try done.
    case_decide; [done|]. unfold Q in *. set_solver. }
  assert (Hj : j < length callees) by (by apply lookup_lt_Some in Hb).
  apply (fold_left_after Q _ _ _ i).
  - apply elem_of_seq. lia.
  - intros s. apply (fold_left_after Q _ _ _ j).
    + apply elem_of_seq. lia.
    + intros s'. rewrite Ha, Hb. unfold Q. case_decide; set_solver.
    + intros s' y. apply Hinner.
  - intros s y Hs. apply fold_left_ind; [done|]. intros s' z _. apply Hinner.
Qed.

(** Every pair of the constraint set relates two functions of the scope. *)
Lemma build_constraints_known cx module p :
  p ∈ build_constraints cx module ->
  p.1 ∈ def_order_of module ∧ p.2 ∈ def_order_of module.
Proof.
  unfold build_constraints.
  apply (fold_left_ind (fun s => p ∈ s ->
    p.1 ∈ def_order_of module ∧ p.2 ∈ def_order_of module)).
  { set_solver. }
  intros s caller Hcaller IH. unfold process_caller.
  destruct (find_caller_body module caller) as [body|]; [|done].
  intros Hp.
  assert (Hcallee : ∀ x, x ∈ collect_callees_in_body cx body (functions_of module) ->
            x ∈ def_order_of module).
  { intros x Hx. apply functions_of_dom. by eapply collect_callees_known. }
  apply build_multiple_precedence_rule_elem in Hp
    as [Hp|(i & j & _ & Hi & Hj)].
  - apply build_caller_callee_constraint_elem in Hp as [Hp|[-> Hp]]; [by apply IH|].
    split; [done|]. by apply Hcallee.
  - split; apply Hcallee; eapply list_elem_of_lookup_2; eauto.
Qed.

(** The record [find_violations] builds for the pair [(a, b)]. *)
Definition violation_record (cx : LateContext) (a b : LocalDefId)
    (ma mb : FnMeta) : Violation :=
  {| idx_first_fn := position_number ma;
     idx_second_fn := position_number mb;
     name_first_fn := def_path_str cx a;
     name_second_fn := def_path_str cx b;
     id_first_fn := a;
     fn_meta := ma |}.

Lemma no_contradiction_empty : no_contradiction ∅.
Proof. intros x y _ [Hin _]. by apply not_elem_of_empty in Hin. Qed.

(** * Properties of the pass *)

(** C1: for distinct [x] and [y] the constraint set never holds both
    [(x, y)] and [(y, x)].  [build_caller_callee_constraint] and
    [build_multiple_precedence_rule] preserve this on any set they are
    given, and it holds at every point of [check_mod]'s loop: after the
    first [k] callers of any module have been processed. *)
Theorem constraint_set_no_contradiction :
  (∀ caller callees S, no_contradiction S ->
     no_contradiction (build_caller_callee_constraint caller callees S)) ∧
  (∀ callees S, no_contradiction S ->
     no_contradiction (build_multiple_precedence_rule callees S)) ∧
  (∀ cx module k, no_contradiction
     (fold_left (process_caller cx module (functions_of module))
        (take k (def_order_of module)) ∅)).
Proof.
  split_and!.
  - intros caller callees S HS.
    eapply guarded_steps_preserve; [apply guarded_step_no_contradiction| |done].
    apply build_caller_callee_constraint_steps.
  - intros callees S HS.
    eapply guarded_steps_preserve; [apply guarded_step_no_contradiction| |done].
    apply build_multiple_precedence_rule_steps.
  - intros cx module k.
    eapply guarded_steps_preserve; [apply guarded_step_no_contradiction| |].
    + apply process_callers_steps.
    + apply no_contradiction_empty.
Qed.

Lemma constraint_set_no_contradiction_witness :
  no_contradiction (build_caller_callee_constraint 1 [0] {[(0, 1)]}) ∧
  no_contradiction (build_multiple_precedence_rule [0; 1] {[(1, 0)]}).
Proof.
  split.
  - apply (proj1 constraint_set_no_contradiction).
    intros x y Hxy [H1 H2]. apply elem_of_singleton in H1, H2. simplify_eq.
  - apply (proj1 (proj2 constraint_set_no_contradiction)).
    intros x y Hxy [H1 H2]. apply elem_of_singleton in H1, H2. simplify_eq.
Defined.

(** C4: for a pair [(a, b)] the closure of [find_violations] skips the
    pair (without panicking) when either lookup fails or when
    [position(a) <= position(b)], and otherwise yields the record with both
    positions, both names and [a]'s metadata; the violations are exactly
    the records of the enumerated pairs whose positions are inverted. *)
Theorem violation_selector_contract cx functions
    (l : list (LocalDefId * LocalDefId)) :
  (∀ a b, filter_violation cx functions (a, b) =
     match functions !! a, functions !! b with
     | Some ma, Some mb =>
         if decide (position_number mb < position_number ma)
         then Some (Some (violation_record cx a b ma mb)) else Some None
     | _, _ => Some None
     end) ∧
  (∃ vs, find_violations cx l functions = Some vs ∧
     ∀ v, v ∈ vs <-> ∃ a b ma mb, (a, b) ∈ l ∧
       functions !! a = Some ma ∧ functions !! b = Some mb ∧
       position_number mb < position_number ma ∧
       v = violation_record cx a b ma mb).
Proof.
  split.
  - intros a b. unfold filter_violation.
    destruct (functions !! a) eqn:Ha; [|done].
    destruct (functions !! b); [|done]. done.
  - eexists. split; [apply find_violations_eq|]. intros v.
    rewrite (find_violations_elem cx l functions _ v) by apply find_violations_eq.
    split.
    + intros ([a b] & Hp & Hv). apply violation_of_spec in Hv.
      destruct Hv as (ma & mb & ? & ? & ? & ->). exists a, b, ma, mb. done.
    + intros (a & b & ma & mb & Hp & Ha & Hb & Hlt & ->). exists (a, b).
      split; [done|]. apply violation_of_spec. exists ma, mb. done.
Qed.

(** C5: the callees of a body are its call targets that are functions of
    the scope, without repetition, in the order of their first call; a
    repeated call or a call to anything else adds nothing. *)
Theorem call_extractor_first_mentions cx body_id local_defs :
  collect_callees_in_body cx body_id local_defs =
    first_mentions ∅ (filter (fun x => is_Some (local_defs !! x))
                        (call_targets (hir_body cx body_id))) ∧
  NoDup (collect_callees_in_body cx body_id local_defs) ∧
  (∀ x, x ∈ collect_callees_in_body cx body_id local_defs <->
        x ∈ call_targets (hir_body cx body_id) ∧ is_Some (local_defs !! x)).
Proof. apply collect_callees_props. Qed.

(** C6: a self pair [(x, x)] never yields a violation: the closure skips
    it and removing it from the enumeration does not change the result. *)
Theorem self_pair_is_no_op cx functions x l1 l2 :
  filter_violation cx functions (x, x) = Some None ∧
  find_violations cx (l1 ++ (x, x) :: l2) functions =
  find_violations cx (l1 ++ l2) functions.
Proof.
  assert (Hself : filter_violation cx functions (x, x) = Some None).
  { unfold filter_violation. destruct (functions !! x); [|done].
    case_decide; [lia|done]. }
  split; [done|]. rewrite !find_violations_eq, !omap_app. simpl.
  unfold violation_of at 2. by rewrite Hself.
Qed.

(** C8: with fewer than two [fn] items, [check_mod] returns before
    building any constraint, and nothing is reported. *)
Theorem fewer_than_two_functions_no_violations cx hash_iter module :
  length (List.filter is_fn module) < 2 ->
  check_mod cx hash_iter module = EarlyReturn ∧
  emitted_lints (check_mod cx hash_iter module) = [].
Proof.
  intros Hlen. unfold check_mod. rewrite def_order_of_spec, length_map.
  rewrite decide_True by done. done.
Qed.

Lemma fewer_than_two_functions_no_violations_witness :
  length (List.filter is_fn [fn_item 0 0]) < 2 ∧
  check_mod scenario3_cx elements [fn_item 0 0] = EarlyReturn ∧
  emitted_lints (check_mod scenario3_cx elements [fn_item 0 0]) = [].
Proof.
  split; [simpl; lia|].
  apply (fewer_than_two_functions_no_violations scenario3_cx elements
           [fn_item 0 0]).
  simpl. lia.
Defined.

(** C9: both ends of every pair of the constraint set have metadata, so
    for such a pair the closure of [find_violations] never skips for
    missing metadata and never reaches the panic of [expect]: the only
    remaining test is the position comparison. *)
Theorem constraint_endpoints_have_metadata cx module p :
  p ∈ build_constraints cx module ->
  ∃ ma mb, functions_of module !! p.1 = Some ma ∧
    functions_of module !! p.2 = Some mb ∧
    filter_violation cx (functions_of module) p =
      Some (if decide (position_number mb < position_number ma)
            then Some (violation_record cx p.1 p.2 ma mb) else None).
Proof.
  intros Hp. destruct (build_constraints_known cx module p Hp) as [H1 H2].
  apply functions_of_dom in H1 as [ma Ha], H2 as [mb Hb].
  exists ma, mb. split_and!; [done|done|].
  destruct p as [a b]. simpl in *. unfold filter_violation.
  rewrite Ha, Hb. by case_decide.
Qed.

Lemma constraint_endpoints_have_metadata_witness :
  (2, 0) ∈ build_constraints scenario3_cx scenario3 ∧
  ∃ ma mb, functions_of scenario3 !! 2 = Some ma ∧
    functions_of scenario3 !! 0 = Some mb ∧
    filter_violation scenario3_cx (functions_of scenario3) (2, 0) =
      Some (if decide (position_number mb < position_number ma)
            then Some (violation_record scenario3_cx 2 0 ma mb) else None).
Proof.
  assert (Hin : (2, 0) ∈ build_constraints scenario3_cx scenario3).
  { apply (bool_decide_eq_true_1 ((2, 0) ∈ build_constraints scenario3_cx scenario3)).
    vm_compute. reflexivity. }
  split; [exact Hin|].
  exact (constraint_endpoints_have_metadata scenario3_cx scenario3 (2, 0) Hin).
Defined.

(** C10: every function collected in [def_order] has its body found by
    [find_caller_body], so its callees are extracted and both builders run
    for it. *)
Theorem every_caller_body_found cx module caller_id :
  caller_id ∈ def_order_of module ->
  ∃ body, find_caller_body module caller_id = Some body ∧
    ∀ S, process_caller cx module (functions_of module) S caller_id =
      build_multiple_precedence_rule
        (collect_callees_in_body cx body (functions_of module))
        (build_caller_callee_constraint caller_id
           (collect_callees_in_body cx body (functions_of module)) S).
Proof.
  intros Hin. rewrite def_order_of_spec in Hin.
  destruct (find_caller_body_fn module caller_id Hin) as [body Hbody].
  exists body. split; [done|]. intros S. unfold process_caller. by rewrite Hbody.
Qed.

Lemma every_caller_body_found_witness :
  1 ∈ def_order_of scenario3 ∧
  ∃ body, find_caller_body scenario3 1 = Some body ∧
    ∀ S, process_caller scenario3_cx scenario3 (functions_of scenario3) S 1 =
      build_multiple_precedence_rule
        (collect_callees_in_body scenario3_cx body (functions_of scenario3))
        (build_caller_callee_constraint 1
           (collect_callees_in_body scenario3_cx body (functions_of scenario3)) S).
Proof.
  assert (Hin : 1 ∈ def_order_of scenario3).
  { apply (bool_decide_eq_true_1 (1 ∈ def_order_of scenario3)).
    vm_compute. reflexivity. }
  split; [exact Hin|].
  exact (every_caller_body_found scenario3_cx scenario3 1 Hin).
Defined.

(** ** The sorted violations are unique *)

Lemma violation_le_refl v : violation_le v v.
Proof.
  unfold violation_le. pose proof (cmp_violation_antisym v v) as H.
  destruct (cmp_violation v v); simpl in H; congruence.
Qed.

Section Sorted_violations.
Variable cx : LateContext.
Variable functions : gmap LocalDefId FnMeta.
Hypothesis positions_inj : ∀ k1 k2 m1 m2,
  functions !! k1 = Some m1 -> functions !! k2 = Some m2 ->
  position_number m1 = position_number m2 -> k1 = k2.

(** Two violations with the same positions come from the same pair. *)
Lemma violation_of_key_inj p1 p2 v1 v2 :
  violation_of cx functions p1 = Some v1 ->
  violation_of cx functions p2 = Some v2 ->
  idx_first_fn v1 = idx_first_fn v2 -> idx_second_fn v1 = idx_second_fn v2 ->
  v1 = v2.
Proof.
  destruct p1 as [a1 b1], p2 as [a2 b2]. rewrite !violation_of_spec.
  intros (ma1 & mb1 & Ha1 & Hb1 & _ & ->) (ma2 & mb2 & Ha2 & Hb2 & _ & ->).
  simpl. intros Hf Hs.
  assert (a1 = a2) as <- by eauto. assert (b1 = b2) as <- by eauto.
  rewrite Ha1 in Ha2. rewrite Hb1 in Hb2. simplify_eq. done.
Qed.

Lemma find_violations_perm l1 l2 :
  l1 ≡ₚ l2 -> find_violations cx l1 functions = find_violations cx l2 functions.
Proof.
  intros Hperm. rewrite !find_violations_eq. f_equal.
  apply (Sorted_unique_strong violation_le); [|apply Sorted_merge_sort, _..|].
  - intros x1 x2 Hx1 Hx2 H12 H21.
    rewrite merge_sort_Permutation, list_elem_of_omap in Hx1, Hx2.
    destruct Hx1 as (p1 & _ & Hp1), Hx2 as (p2 & _ & Hp2).
    destruct (violation_le_both _ _ H12 H21).
    eauto using violation_of_key_inj.
  - by rewrite !merge_sort_Permutation, Hperm.
Qed.

Lemma find_violations_key_total l vs :
  find_violations cx l functions = Some vs ->
  ∀ v1 v2, v1 ∈ vs -> v2 ∈ vs -> cmp_violation v1 v2 = Eq -> v1 = v2.
Proof.
  intros Hvs v1 v2 Hv1 Hv2 Heq.
  apply (find_violations_elem _ _ _ _ _ Hvs) in Hv1 as (p1 & _ & Hp1).
  apply (find_violations_elem _ _ _ _ _ Hvs) in Hv2 as (p2 & _ & Hp2).
  assert (violation_le v1 v2) as H12 by (unfold violation_le; congruence).
  assert (violation_le v2 v1) as H21.
  { unfold violation_le. rewrite cmp_violation_antisym, Heq. done. }
  destruct (violation_le_both _ _ H12 H21).
  eauto using violation_of_key_inj.
Qed.
End Sorted_violations.

(** ** The reporting loop *)

Lemma emit_loop_props warned vs :
  NoDup (map id_first_fn (emit_loop warned vs)) ∧
  (∀ v, v ∈ emit_loop warned vs ->
     (id_first_fn v ∉ warned) ∧
     ∃ pre post, vs = pre ++ v :: post ∧
       ∀ w, w ∈ pre -> id_first_fn w ≠ id_first_fn v) ∧
  (∀ w, w ∈ vs -> id_first_fn w ∈ warned ∨
     ∃ v, v ∈ emit_loop warned vs ∧ id_first_fn v = id_first_fn w) ∧
  (∀ v, v ∈ emit_loop warned vs -> v ∈ vs).
Proof.
  revert warned. induction vs as [|u vs IH]; intros warned; simpl.
  - split_and!; [constructor|set_solver..].
  - case_decide as Hu.
    + destruct (IH warned) as (Hnd & Hpre & Hcov & Hsub). split_and!; [done|..].
      * intros v Hv. destruct (Hpre v Hv) as (Hw & pre & post & -> & Hne).
        split; [done|]. exists (u :: pre), post. split; [done|].
        intros w [->|Hw']%elem_of_cons; [|by apply Hne].
        intros Heq. rewrite Heq in Hu. done.
      * intros w [->|Hw]%elem_of_cons; [by left|by apply Hcov].
      * intros v Hv. right. by apply Hsub.
    + destruct (IH ({[id_first_fn u]} ∪ warned)) as (Hnd & Hpre & Hcov & Hsub).
      split_and!.
      * simpl. constructor; [|done]. intros Hin.
        apply list_elem_of_fmap in Hin as (v & Hid & Hv).
        destruct (Hpre v Hv) as [Hn _]. set_solver.
      * intros v [->|Hv]%elem_of_cons.
        { split; [done|]. exists [], vs. split; [done|]. set_solver. }
        destruct (Hpre v Hv) as (Hw & pre & post & -> & Hne).
        split; [set_solver|]. exists (u :: pre), post. split; [done|].
        intros w [->|Hw']%elem_of_cons; [set_solver|by apply Hne].
      * intros w [->|Hw]%elem_of_cons.
        { right. exists u. split; [left|]; done. }
        destruct (Hcov w Hw) as [Hin|(v & Hv & Heq)].
        { apply elem_of_union in Hin as [Hin|Hin]; [|by left].
          apply elem_of_singleton in Hin. right. exists u. split; [left|]; done. }
        right. exists v. split; [right|]; done.
      * intros v [->|Hv]%elem_of_cons; [left|right; by apply Hsub].
Qed.

Lemma check_mod_linted cx hash_iter module S vs lints :
  check_mod cx hash_iter module = Linted S vs lints ->
  S = build_constraints cx module ∧
  vs = merge_sort violation_le
         (omap (violation_of cx (functions_of module)) (hash_iter S)) ∧
  lints = map diagnostic_of (emit_loop ∅ vs).
Proof.
  unfold check_mod. case_decide; [done|]. rewrite find_violations_eq.
  intros [= <- <- <-]. done.
Qed.

Lemma linted_violation_meta cx module l w :
  w ∈ merge_sort violation_le (omap (violation_of cx (functions_of module)) l) ->
  ∃ m, functions_of module !! id_first_fn w = Some m ∧
       idx_first_fn w = position_number m.
Proof.
  rewrite merge_sort_Permutation, list_elem_of_omap.
  intros ([a b] & _ & Hw). apply violation_of_spec in Hw.
  destruct Hw as (ma & mb & Ha & _ & _ & ->). exists ma. done.
Qed.

(** C7: [check_mod] does not depend on the iteration order of the
    [HashSet]: two runs on the same module with any two enumerations of
    the constraint set give the same constraints, the same sorted
    violations and the same lints, because the sort key identifies a
    violation among those [find_violations] produces. *)
Theorem check_mod_deterministic cx module hash_iter1 hash_iter2 :
  valid_iter hash_iter1 -> valid_iter hash_iter2 ->
  check_mod cx hash_iter1 module = check_mod cx hash_iter2 module ∧
  ∀ l vs, find_violations cx l (functions_of module) = Some vs ->
    ∀ v1 v2, v1 ∈ vs -> v2 ∈ vs -> cmp_violation v1 v2 = Eq -> v1 = v2.
Proof.
  intros H1 H2. split.
  - unfold check_mod. case_decide; [done|].
    assert (Heq : find_violations cx (hash_iter1 (build_constraints cx module))
                    (functions_of module) =
                  find_violations cx (hash_iter2 (build_constraints cx module))
                    (functions_of module)).
    { apply find_violations_perm; [apply functions_of_inj|]. by rewrite (H1 _), (H2 _). }
    by rewrite Heq.
  - intros l vs. apply find_violations_key_total, functions_of_inj.
Qed.

Lemma check_mod_deterministic_witness :
  valid_iter elements ∧ valid_iter (fun S => reverse (elements S)) ∧
  (check_mod scenario3_cx elements scenario3 =
   check_mod scenario3_cx (fun S => reverse (elements S)) scenario3 ∧
   ∀ l vs, find_violations scenario3_cx l (functions_of scenario3) = Some vs ->
     ∀ v1 v2, v1 ∈ vs -> v2 ∈ vs -> cmp_violation v1 v2 = Eq -> v1 = v2).
Proof.
  assert (Hv1 : valid_iter elements) by (intros S; reflexivity).
  assert (Hv2 : valid_iter (fun S => reverse (elements S)))
    by (intros S; apply reverse_Permutation).
  split; [exact Hv1|]. split; [exact Hv2|].
  exact (check_mod_deterministic scenario3_cx scenario3 _ _ Hv1 Hv2).
Defined.

(** C3: the violations are sorted by (before position, after position,
    before name); at most one lint is emitted per offending function; the
    one emitted for a function is its violation that comes first in that
    order, so it has the lowest after position among that function's
    violations; every offending function gets one; and there are at most as
    many lints as functions in the scope. *)
Theorem one_lint_per_offending_function cx hash_iter module S vs lints :
  check_mod cx hash_iter module = Linted S vs lints ->
  Sorted violation_le vs ∧
  lints = map diagnostic_of (emit_loop ∅ vs) ∧
  NoDup (map id_first_fn (emit_loop ∅ vs)) ∧
  (∀ v, v ∈ emit_loop ∅ vs -> ∀ w, w ∈ vs -> id_first_fn w = id_first_fn v ->
     violation_le v w ∧ idx_second_fn v ≤ idx_second_fn w) ∧
  (∀ w, w ∈ vs -> ∃ v, v ∈ emit_loop ∅ vs ∧ id_first_fn v = id_first_fn w) ∧
  length lints ≤ size (functions_of module).
Proof.
  intros Hcm. apply check_mod_linted in Hcm as (-> & Hvs & ->).
  set (fs := functions_of module) in *.
  assert (Hmeta : ∀ w, w ∈ vs ->
    ∃ m, fs !! id_first_fn w = Some m ∧ idx_first_fn w = position_number m).
  { intros w Hw. rewrite Hvs in Hw. by apply linted_violation_meta in Hw. }
  assert (Hsorted : Sorted violation_le vs) by (rewrite Hvs; apply Sorted_merge_sort, _).
  destruct (emit_loop_props ∅ vs) as (Hnd & Hpre & Hcov & Hsub).
  split_and!; [done|done|done|..].
  - intros v Hv w Hw Hid.
    destruct (Hpre v Hv) as (_ & pre & post & Hsplit & Hne).
    assert (Hle : violation_le v w).
    { rewrite Hsplit in Hw. apply elem_of_app in Hw as [Hw|Hw].
      - by destruct (Hne w Hw).
      - apply elem_of_cons in Hw as [->|Hw]; [apply violation_le_refl|].
        apply Sorted_StronglySorted in Hsorted; [|apply _].
        rewrite Hsplit in Hsorted.
        apply StronglySorted_app in Hsorted as (_ & _ & Hvpost).
        apply StronglySorted_inv in Hvpost as [_ Hall].
        by eapply Forall_forall in Hall. }
    split; [done|].
    destruct (Hmeta v (Hsub v Hv)) as (mv & Hmv & Hiv).
    destruct (Hmeta w Hw) as (mw & Hmw & Hiw).
    rewrite Hid, Hmv in Hmw. simplify_eq.
    unfold violation_le, cmp_violation in Hle.
    rewrite Hiv, Hiw, Nat.compare_refl in Hle.
    destruct (Nat.compare_spec (idx_second_fn v) (idx_second_fn w)); [lia|lia|done].
  - intros w Hw. destruct (Hcov w Hw) as [Hin|Hex]; [set_solver|done].
  - rewrite length_map.
    assert (Hsz : size (list_to_set (map id_first_fn (emit_loop ∅ vs)) : gset LocalDefId)
                  = length (map id_first_fn (emit_loop ∅ vs)))
      by (apply size_list_to_set; done).
    rewrite <-(length_map id_first_fn), <-Hsz.
    rewrite <-size_dom. apply subseteq_size. intros x Hx.
    apply elem_of_list_to_set, list_elem_of_fmap in Hx as (v & -> & Hv).
    destruct (Hmeta v (Hsub v Hv)) as (m & Hm & _).
    by eapply elem_of_dom_2.
Qed.

Definition scenario3_constraints : Constraints :=
  build_constraints scenario3_cx scenario3.

Definition scenario3_violations : list Violation :=
  merge_sort violation_le
    (omap (violation_of scenario3_cx (functions_of scenario3))
       (elements scenario3_constraints)).

Lemma one_lint_per_offending_function_witness :
  check_mod scenario3_cx elements scenario3 =
    Linted scenario3_constraints scenario3_violations
      (map diagnostic_of (emit_loop ∅ scenario3_violations)) ∧
  (Sorted violation_le scenario3_violations ∧
   map diagnostic_of (emit_loop ∅ scenario3_violations) =
     map diagnostic_of (emit_loop ∅ scenario3_violations) ∧
   NoDup (map id_first_fn (emit_loop ∅ scenario3_violations)) ∧
   (∀ v, v ∈ emit_loop ∅ scenario3_violations -> ∀ w, w ∈ scenario3_violations ->
      id_first_fn w = id_first_fn v ->
      violation_le v w ∧ idx_second_fn v ≤ idx_second_fn w) ∧
   (∀ w, w ∈ scenario3_violations ->
      ∃ v, v ∈ emit_loop ∅ scenario3_violations ∧ id_first_fn v = id_first_fn w) ∧
   length (map diagnostic_of (emit_loop ∅ scenario3_violations)) ≤
     size (functions_of scenario3)).
Proof.
  assert (Hcm : check_mod scenario3_cx elements scenario3 =
    Linted scenario3_constraints scenario3_violations
      (map diagnostic_of (emit_loop ∅ scenario3_violations)))
    by (vm_compute; reflexivity).
  split; [exact Hcm|].
  exact (one_lint_per_offending_function _ _ _ _ _ _ Hcm).
Defined.

(** Callers [c] (0), [a] (1), [b] (2), then [x] (3) and [y] (4): [c] calls
    [y] then [x], [a] calls [x] then [y], [b] calls [y] then [x]. *)
Definition earlier_writer_cx : LateContext :=
  mk_cx [OtherExpr [call_fn 4; call_fn 3]; OtherExpr [call_fn 3; call_fn 4];
         OtherExpr [call_fn 4; call_fn 3]; OtherExpr []; OtherExpr []]
        ["c"; "a"; "b"; "x"; "y"]%string.

Definition earlier_writer : Mod :=
  [fn_item 0 0; fn_item 1 1; fn_item 2 2; fn_item 3 3; fn_item 4 4].

Lemma no_reverse_pair_after_caller A callees S X Y :
  A ≠ Y -> (Y, X) ∉ S ->
  (Y, X) ∉ build_caller_callee_constraint A callees S.
Proof.
  intros HAY HS Hin.
  apply build_caller_callee_constraint_elem in Hin as [Hin|[Heq _]]; [done|].
  simpl in Heq. congruence.
Qed.

Lemma sibling_rule_sets_pair callees S i j X Y :
  NoDup callees -> i < j -> callees !! i = Some X -> callees !! j = Some Y ->
  (Y, X) ∉ S ->
  (X, Y) ∈ build_multiple_precedence_rule callees S ∧
  (Y, X) ∉ build_multiple_precedence_rule callees S.
Proof.
  intros Hnd Hij HX HY HS.
  assert (Hnot : (Y, X) ∉ build_multiple_precedence_rule callees S).
  { intros Hin. apply build_multiple_precedence_rule_elem in Hin
      as [Hin|(i' & j' & Hij' & HY' & HX')]; [done|]. simpl in HY', HX'.
    assert (i' = j) by (eapply NoDup_lookup; eauto).
    assert (j' = i) by (eapply NoDup_lookup; eauto). lia. }
  split; [|done].
  destruct (build_multiple_precedence_rule_decides callees S i j X Y) as [H|H];
    done.
Qed.

(** C2, as stated, fails: with callers [a] then [b], [a] calling [x] then
    [y] and [b] calling [y] then [x], the final set holds [(y, x)] and not
    [(x, y)], because the earlier caller [c] already fixed [(y, x)]; and
    [y] is reported relative to [x] although [x] is declared first. *)
Lemma first_writer_wins_counterexample :
  def_order_of earlier_writer = [0; 1; 2; 3; 4] ∧
  collect_callees_in_body earlier_writer_cx 1 (functions_of earlier_writer) = [3; 4] ∧
  collect_callees_in_body earlier_writer_cx 2 (functions_of earlier_writer) = [4; 3] ∧
  (4, 3) ∈ build_constraints earlier_writer_cx earlier_writer ∧
  ((3, 4) ∉ build_constraints earlier_writer_cx earlier_writer) ∧
  map label (emitted_lints (check_mod earlier_writer_cx elements earlier_writer)) =
    ["function `y` should be defined before `x`"]%string.
Proof.
  split_and!; try (vm_compute; reflexivity).
  apply (bool_decide_eq_false_1
      ((3, 4) ∈ build_constraints earlier_writer_cx earlier_writer)).
    vm_compute. reflexivity.
Qed.

(** C2, amended: let [A] be a caller whose call sequence has [X] before
    [Y].  When no caller declared before [A] has put [(Y, X)] into the set
    and [A] is not [Y], the final set holds [(X, Y)] and not [(Y, X)],
    whatever later callers such as [B] call; and when [X] is declared
    before [Y], no violation relates [X] and [Y]. *)
Theorem first_writer_wins_between_siblings cx hash_iter module pre A post body
    X Y i j :
  valid_iter hash_iter ->
  def_order_of module = pre ++ A :: post ->
  find_caller_body module A = Some body ->
  i < j ->
  collect_callees_in_body cx body (functions_of module) !! i = Some X ->
  collect_callees_in_body cx body (functions_of module) !! j = Some Y ->
  A ≠ Y ->
  ((Y, X) ∉ fold_left (process_caller cx module (functions_of module)) pre ∅) ->
  (X, Y) ∈ build_constraints cx module ∧
  ((Y, X) ∉ build_constraints cx module) ∧
  ∀ S vs lints mX mY,
    check_mod cx hash_iter module = Linted S vs lints ->
    functions_of module !! X = Some mX -> functions_of module !! Y = Some mY ->
    position_number mX < position_number mY ->
    ∀ v, v ∈ vs ->
      ¬ (id_first_fn v = X ∧ idx_second_fn v = position_number mY) ∧
      ¬ (id_first_fn v = Y ∧ idx_second_fn v = position_number mX).
Proof.
  intros Hiter Hord Hbody Hij HX HY HAY Hpre.
  set (fs := functions_of module) in *.
  set (cs := collect_callees_in_body cx body fs) in *.
  assert (Hwin : (X, Y) ∈ build_constraints cx module ∧
                 (Y, X) ∉ build_constraints cx module).
  { unfold build_constraints. fold fs. rewrite Hord, fold_left_app. simpl.
    set (S0 := fold_left (process_caller cx module fs) pre ∅) in *.
    assert (HA : process_caller cx module fs S0 A =
                 build_multiple_precedence_rule cs (build_caller_callee_constraint A cs S0))
      by (unfold process_caller; by rewrite Hbody).
    rewrite HA.
    apply (guarded_steps_preserve (fun s => (X, Y) ∈ s ∧ (Y, X) ∉ s)
             (build_multiple_precedence_rule cs (build_caller_callee_constraint A cs S0))).
    { intros s s' Hs Hstep. by eapply guarded_step_keeps_winner. }
    { apply process_callers_steps. }
    apply sibling_rule_sets_pair with i j; try done.
    - apply collect_callees_NoDup.
    - by apply no_reverse_pair_after_caller. }
  destruct Hwin as [HXY HYX]. split_and!; [done|done|].
  intros S vs lints mX mY Hcm HmX HmY Hlt v Hv.
  unfold fs in *.
  apply check_mod_linted in Hcm as (-> & -> & _).
  rewrite merge_sort_Permutation, list_elem_of_omap in Hv.
  destruct Hv as ([a b] & Hp & Hv).
  rewrite (Hiter _), elem_of_elements in Hp.
  apply violation_of_spec in Hv as (ma & mb & Ha & Hb & Hab & ->). simpl.
  split.
  - intros [-> Hpos]. rewrite Ha in HmX. simplify_eq.
    assert (b = Y) as -> by (eapply functions_of_inj; eauto). 
    rewrite Hb in HmY. simplify_eq. lia.
  - intros [-> Hpos].
    assert (b = X) as -> by (eapply functions_of_inj; eauto). done.
Qed.

Lemma first_writer_wins_between_siblings_witness :
  def_order_of earlier_writer = [] ++ 0 :: [1; 2; 3; 4] ∧
  collect_callees_in_body earlier_writer_cx 0 (functions_of earlier_writer) = [4; 3] ∧
  (4, 3) ∈ build_constraints earlier_writer_cx earlier_writer ∧
  ((3, 4) ∉ build_constraints earlier_writer_cx earlier_writer) ∧
  ∀ S vs lints mX mY,
    check_mod earlier_writer_cx elements earlier_writer = Linted S vs lints ->
    functions_of earlier_writer !! 4 = Some mX ->
    functions_of earlier_writer !! 3 = Some mY ->
    position_number mX < position_number mY ->
    ∀ v, v ∈ vs ->
      ¬ (id_first_fn v = 4 ∧ idx_second_fn v = position_number mY) ∧
      ¬ (id_first_fn v = 3 ∧ idx_second_fn v = position_number mX).
Proof.
  split; [vm_compute; reflexivity|].
  split; [vm_compute; reflexivity|].
  apply (first_writer_wins_between_siblings earlier_writer_cx elements
           earlier_writer [] 0 [1; 2; 3; 4] 0 4 3 0 1).
  - intros S. reflexivity.
  - vm_compute. reflexivity.
  - vm_compute. reflexivity.
  - lia.
  - vm_compute. reflexivity.
  - vm_compute. reflexivity.
  - lia.
  - simpl. apply not_elem_of_empty.
Defined.

(** * More about the pass *)

(** ** Supporting lemmas *)

(** ** Builders *)

Lemma build_caller_callee_constraint_snoc caller callees x S :
  build_caller_callee_constraint caller (callees ++ [x]) S =
  (let s := build_caller_callee_constraint caller callees S in
   if decide ((x, caller) ∈ s) then s else {[(caller, x)]} ∪ s).
Proof. unfold build_caller_callee_constraint. by rewrite fold_left_app. Qed.

Lemma build_caller_callee_constraint_iff caller callees S a b :
  (a, b) ∈ build_caller_callee_constraint caller callees S <->
  (a, b) ∈ S ∨ (a = caller ∧ b ∈ callees ∧ (b, caller) ∉ S).
Proof.
  revert a b. induction callees as [|x callees IH] using rev_ind; intros a b.
  - simpl. split; [by left|]. intros [?|(_ & Hb & _)]; [done|].
    by apply elem_of_nil in Hb.
  - rewrite build_caller_callee_constraint_snoc. cbv zeta.
    rewrite elem_of_app, list_elem_of_singleton.
    case_decide as Hx.
    + rewrite IH. split.
      * intros [?|(? & ? & ?)]; [by left|right; eauto].
      * intros [Hab|(-> & [Hb| ->] & Hn)]; [by left|right; eauto|].
        apply IH in Hx as [Hx|(-> & Hb & Hn')]; [done|]. right. done.
    + rewrite elem_of_union, elem_of_singleton, IH.
      assert (HxS : (x, caller) ∉ S) by (intros H; apply Hx, IH; by left).
      split.
      * intros [[= -> ->]|[?|(? & ? & ?)]];
          [right; split_and!; [done|by right|done]|by left|right; eauto].
      * intros [?|(-> & [Hb| ->] & Hn)]; [right; by left|right; right; eauto|by left].
Qed.

(** After [build_caller_callee_constraint], every callee is ordered with
    respect to the caller. *)
Lemma build_caller_callee_constraint_orders caller callees S c :
  c ∈ callees ->
  (caller, c) ∈ build_caller_callee_constraint caller callees S ∨
  (c, caller) ∈ build_caller_callee_constraint caller callees S.
Proof.
  intros Hc. pose proof (guarded_steps_subseteq _ _
    (build_caller_callee_constraint_steps caller callees S)) as Hsub.
  destruct (decide ((c, caller) ∈ S)) as [Hin|Hin]; [right; by apply Hsub|].
  left. apply build_caller_callee_constraint_iff. right. done.
Qed.

(** ** Function lookup *)

Lemma find_caller_body_Some module caller_id body :
  find_caller_body module caller_id = Some body <->
  ∃ pre item post, module = pre ++ item :: post ∧ kind item = Fn body ∧
    owner_id item = caller_id ∧
    ∀ it, it ∈ pre -> is_fn it = true -> owner_id it ≠ caller_id.
Proof.
  split.
  - induction module as [|item module IH]; simpl; [done|].
    destruct (kind item) as [b|] eqn:Hk.
    + destruct (Nat.eqb_spec (owner_id item) caller_id) as [Heq|Hne].
      * intros [= <-]. exists [], item, module. split_and!; try done.
        intros it Hit. by apply elem_of_nil in Hit.
      * intros Hf. destruct (IH Hf) as (pre & it & post & -> & Hk' & Ho & Hpre).
        exists (item :: pre), it, post. split_and!; try done.
        intros it' [->|Hit']%elem_of_cons; [done|]. by apply Hpre.
    + intros Hf. destruct (IH Hf) as (pre & it & post & -> & Hk' & Ho & Hpre).
      exists (item :: pre), it, post. split_and!; try done.
      intros it' [->|Hit']%elem_of_cons; [unfold is_fn; by rewrite Hk|].
      by apply Hpre.
  - intros (pre & item & post & -> & Hk & Ho & Hpre).
    induction pre as [|it pre IH]; simpl.
    + rewrite Hk. subst caller_id. by rewrite Nat.eqb_refl.
    + destruct (kind it) as [b|] eqn:Hk'.
      * destruct (Nat.eqb_spec (owner_id it) caller_id) as [Heq|_].
        { exfalso. apply (Hpre it); [left|unfold is_fn; by rewrite Hk'|done]. }
        apply IH. intros it' Hit'. apply Hpre. by right.
      * apply IH. intros it' Hit'. apply Hpre. by right.
Qed.

Lemma find_caller_body_None module caller_id :
  find_caller_body module caller_id = None <-> caller_id ∉ def_order_of module.
Proof.
  rewrite def_order_of_spec. split.
  - intros Hn Hin. destruct (find_caller_body_fn module caller_id Hin) as [b Hb].
    congruence.
  - intros Hnin. destruct (find_caller_body module caller_id) as [body|] eqn:Hf; [|done].
    exfalso. apply Hnin.
    apply find_caller_body_Some in Hf as (pre & item & post & -> & Hk & <- & _).
    apply list_elem_of_fmap. exists item. split; [done|].
    apply list_elem_of_In, filter_In. split.
    + apply in_or_app. right. by left.
    + unfold is_fn. by rewrite Hk.
Qed.

Lemma find_caller_body_in_def_order module caller_id body :
  find_caller_body module caller_id = Some body -> caller_id ∈ def_order_of module.
Proof.
  intros Hf. destruct (decide (caller_id ∈ def_order_of module)) as [?|Hn]; [done|].
  apply find_caller_body_None in Hn. congruence.
Qed.

(** ** Collection *)

Lemma collect_idx module acc :
  (fold_left collect_step module acc).2 = acc.2 + length (List.filter is_fn module).
Proof.
  revert acc. induction module as [|item module IH]; intros [[d fs] i]; simpl; [lia|].
  rewrite IH. unfold is_fn. destruct (kind item); simpl; lia.
Qed.

Lemma length_def_order_of module :
  length (def_order_of module) = (collect_functions module).2.
Proof.
  rewrite def_order_of_spec, length_map. unfold collect_functions.
  rewrite collect_idx. done.
Qed.

Lemma functions_of_item module k m :
  functions_of module !! k = Some m ->
  ∃ item, item ∈ module ∧ is_fn item = true ∧ owner_id item = k ∧
    span m = item_span item.
Proof.
  unfold functions_of, collect_functions.
  apply (fold_left_ind (fun acc => acc.1.2 !! k = Some m -> ∃ item, item ∈ module ∧
    is_fn item = true ∧ owner_id item = k ∧ span m = item_span item)).
  { simpl. by rewrite lookup_empty. }
  intros [[d fs] i] item Hitem IH. simpl. unfold is_fn.
  destruct (kind item) eqn:Hk; simpl; [|done].
  destruct (decide (owner_id item = k)) as [<-|Hne].
  - rewrite lookup_insert_eq. intros [= <-]. exists item. by rewrite Hk.
  - rewrite lookup_insert_ne by done. done.
Qed.

Lemma collect_keeps module acc k :
  k ∉ map owner_id (List.filter is_fn module) ->
  (fold_left collect_step module acc).1.2 !! k = acc.1.2 !! k.
Proof.
  revert acc. induction module as [|item module IH]; intros [[d fs] i] Hk; simpl; [done|].
  unfold is_fn in Hk. destruct (kind item) eqn:Hki; simpl in *; rewrite Hki in Hk.
  - apply not_elem_of_cons in Hk as [Hne Hk].
    rewrite IH by done. simpl. by rewrite lookup_insert_ne.
  - by rewrite IH.
Qed.

Lemma collect_positions module acc n item :
  NoDup (acc.1.1 ++ map owner_id (List.filter is_fn module)) ->
  List.filter is_fn module !! n = Some item ->
  (fold_left collect_step module acc).1.2 !! owner_id item =
    Some {| position_number := acc.2 + n; span := item_span item |}.
Proof.
  revert acc n. induction module as [|it module IH]; intros [[d fs] i] n Hnd Hn;
    [simpl in Hn; done|].
  change (List.filter is_fn (it :: module)) with
    (if is_fn it then it :: List.filter is_fn module else List.filter is_fn module)
    in Hnd, Hn.
  simpl. destruct (kind it) as [b|] eqn:Hk.
  - assert (Hf : is_fn it = true) by (unfold is_fn; by rewrite Hk).
    rewrite Hf in Hnd, Hn. simpl in Hnd, Hn.
    destruct n as [|n].
    + injection Hn as <-. rewrite collect_keeps; simpl.
      * rewrite lookup_insert_eq. by rewrite Nat.add_0_r.
      * apply NoDup_app in Hnd as (_ & Hdis & Hnd). by apply NoDup_cons in Hnd as [? _].
    + rewrite (IH (d ++ [owner_id it], _, S i) n); simpl.
      * do 3 f_equal. lia.
      * by rewrite <-app_assoc.
      * done.
  - assert (Hf : is_fn it = false) by (unfold is_fn; by rewrite Hk).
    rewrite Hf in Hnd, Hn. by apply (IH (d, fs, i)).
Qed.

(** ** Non-function items *)

Lemma collect_filter module acc :
  fold_left collect_step module acc = fold_left collect_step (List.filter is_fn module) acc.
Proof.
  revert acc. induction module as [|item module IH]; intros acc; simpl; [done|].
  unfold is_fn at 1. destruct (kind item) eqn:Hk; simpl; [done|].
  rewrite <-IH. f_equal. destruct acc as [[d fs] i]. simpl. by rewrite Hk.
Qed.

Lemma find_caller_body_filter module caller_id :
  find_caller_body module caller_id = find_caller_body (List.filter is_fn module) caller_id.
Proof.
  induction module as [|item module IH]; [done|].
  change (List.filter is_fn (item :: module)) with
    (if is_fn item then item :: List.filter is_fn module else List.filter is_fn module).
  simpl. destruct (kind item) eqn:Hk.
  - assert (Hf : is_fn item = true) by (unfold is_fn; by rewrite Hk).
    rewrite Hf. simpl. rewrite Hk. by rewrite IH.
  - assert (Hf : is_fn item = false) by (unfold is_fn; by rewrite Hk).
    by rewrite Hf.
Qed.

Lemma fold_left_pointwise {A B} (f g : A -> B -> A) (l : list B) (s : A) :
  (∀ s x, f s x = g s x) -> fold_left f l s = fold_left g l s.
Proof.
  intros Hfg. revert s. induction l as [|x l IH]; intros s; simpl; [done|].
  by rewrite Hfg, IH.
Qed.

Lemma check_mod_filter cx hash_iter module :
  check_mod cx hash_iter module = check_mod cx hash_iter (List.filter is_fn module).
Proof.
  assert (Hd : def_order_of (List.filter is_fn module) = def_order_of module).
  { unfold def_order_of, collect_functions. by rewrite <-collect_filter. }
  assert (Hf : functions_of (List.filter is_fn module) = functions_of module).
  { unfold functions_of, collect_functions. by rewrite <-collect_filter. }
  assert (Hb : build_constraints cx (List.filter is_fn module) = build_constraints cx module).
  { unfold build_constraints. rewrite Hd, Hf. apply fold_left_pointwise.
    intros s x. unfold process_caller. by rewrite <-find_caller_body_filter. }
  unfold check_mod. by rewrite Hd, Hf, Hb.
Qed.

(** ** Where the constraints come from *)

Lemma build_constraints_origin cx module a b :
  (a, b) ∈ build_constraints cx module ->
  ∃ A body, find_caller_body module A = Some body ∧
    ((A = a ∧ b ∈ collect_callees_in_body cx body (functions_of module)) ∨
     ∃ i j, i < j ∧
       collect_callees_in_body cx body (functions_of module) !! i = Some a ∧
       collect_callees_in_body cx body (functions_of module) !! j = Some b).
Proof.
  unfold build_constraints.
  apply (fold_left_ind (fun s => (a, b) ∈ s ->
    ∃ A body, find_caller_body module A = Some body ∧
      ((A = a ∧ b ∈ collect_callees_in_body cx body (functions_of module)) ∨
       ∃ i j, i < j ∧
         collect_callees_in_body cx body (functions_of module) !! i = Some a ∧
         collect_callees_in_body cx body (functions_of module) !! j = Some b))).
  { intros H. by apply not_elem_of_empty in H. }
  intros s caller _ IH. unfold process_caller.
  destruct (find_caller_body module caller) as [body|] eqn:Hbody; [|done].
  intros Hp.
  apply build_multiple_precedence_rule_elem in Hp as [Hp|(i & j & Hij & Hi & Hj)].
  - apply build_caller_callee_constraint_elem in Hp as [Hp|[Ha Hb]]; [by apply IH|].
    exists caller, body. split; [done|]. left. done.
  - exists caller, body. split; [done|]. right. exists i, j. done.
Qed.

Lemma calls_ordered cx module A body :
  find_caller_body module A = Some body ->
  (∀ c, c ∈ collect_callees_in_body cx body (functions_of module) ->
     (A, c) ∈ build_constraints cx module ∨ (c, A) ∈ build_constraints cx module) ∧
  (∀ i j a b, i < j ->
     collect_callees_in_body cx body (functions_of module) !! i = Some a ->
     collect_callees_in_body cx body (functions_of module) !! j = Some b ->
     (a, b) ∈ build_constraints cx module ∨ (b, a) ∈ build_constraints cx module).
Proof.
  intros Hbody.
  destruct (list_elem_of_split _ _ (find_caller_body_in_def_order _ _ _ Hbody))
    as (pre & post & Hord).
  set (fs := functions_of module).
  set (cs := collect_callees_in_body cx body fs).
  set (S0 := fold_left (process_caller cx module fs) pre ∅).
  assert (HA : process_caller cx module fs S0 A =
               build_multiple_precedence_rule cs (build_caller_callee_constraint A cs S0))
    by (unfold process_caller; by rewrite Hbody).
  assert (Hsub : build_multiple_precedence_rule cs (build_caller_callee_constraint A cs S0)
                 ⊆ build_constraints cx module).
  { unfold build_constraints. fold fs. rewrite Hord, fold_left_app. simpl.
    change (fold_left (process_caller cx module fs) pre ∅) with S0.
    rewrite HA. apply guarded_steps_subseteq, process_callers_steps. }
  assert (Hsub2 : build_caller_callee_constraint A cs S0 ⊆
                  build_multiple_precedence_rule cs (build_caller_callee_constraint A cs S0))
    by apply guarded_steps_subseteq, build_multiple_precedence_rule_steps.
  split.
  - intros c Hc.
    destruct (build_caller_callee_constraint_orders A cs S0 c Hc);
      [left|right]; apply Hsub, Hsub2; done.
  - intros i j a b Hij Ha Hb.
    destruct (build_multiple_precedence_rule_decides cs
                (build_caller_callee_constraint A cs S0) i j a b Hij Ha Hb);
      [left|right]; by apply Hsub.
Qed.

(** ** Outcomes and lints *)

Lemma check_mod_cases cx hash_iter module :
  (check_mod cx hash_iter module = EarlyReturn ∧ length (def_order_of module) < 2) ∨
  ∃ vs lints, check_mod cx hash_iter module = Linted (build_constraints cx module) vs lints.
Proof.
  unfold check_mod. case_decide; [by left|right]. rewrite find_violations_eq. eauto.
Qed.

Lemma emit_loop_empty_cons v vs : ∃ r, emit_loop ∅ (v :: vs) = v :: r.
Proof. simpl. case_decide as Hv; [by apply not_elem_of_empty in Hv|eauto]. Qed.

Lemma linted_elem cx hash_iter module S vs lints :
  valid_iter hash_iter -> check_mod cx hash_iter module = Linted S vs lints ->
  ∀ v, v ∈ vs <-> ∃ a b, (a, b) ∈ S ∧ violation_of cx (functions_of module) (a, b) = Some v.
Proof.
  intros Hiter Hcm v. apply check_mod_linted in Hcm as (-> & -> & _).
  rewrite merge_sort_Permutation, list_elem_of_omap. split.
  - intros ([a b] & Hp & Hv). rewrite (Hiter _), elem_of_elements in Hp. eauto.
  - intros (a & b & Hp & Hv). exists (a, b). rewrite (Hiter _), elem_of_elements. done.
Qed.

Lemma lints_nil_iff cx hash_iter module S vs lints :
  valid_iter hash_iter -> check_mod cx hash_iter module = Linted S vs lints ->
  (lints = [] <-> ∀ a b ma mb, (a, b) ∈ S -> functions_of module !! a = Some ma ->
     functions_of module !! b = Some mb -> position_number ma ≤ position_number mb).
Proof.
  intros Hiter Hcm. pose proof (linted_elem cx hash_iter module S vs lints) as Hin.
  specialize (Hin Hiter Hcm).
  apply check_mod_linted in Hcm as (_ & _ & ->). split.
  - intros Hnil a b ma mb Hab Ha Hb.
    destruct (decide (position_number mb < position_number ma)) as [Hlt|]; [|lia].
    exfalso. destruct vs as [|v vs'].
    + assert (Hv : violation_record cx a b ma mb ∈ ([] : list Violation)).
      { apply Hin. exists a, b. split; [done|]. apply violation_of_spec.
        exists ma, mb. done. }
      by apply elem_of_nil in Hv.
    + destruct (emit_loop_empty_cons v vs') as [r Hr]. by rewrite Hr in Hnil.
  - intros Hall. destruct vs as [|v vs']; [done|]. exfalso.
    destruct (proj1 (Hin v) (list_elem_of_here v vs')) as (a & b & Hab & Hv).
    apply violation_of_spec in Hv as (ma & mb & Ha & Hb & Hlt & _).
    specialize (Hall a b ma mb Hab Ha Hb). lia.
Qed.

Lemma lint_origin cx hash_iter module S vs lints d :
  valid_iter hash_iter -> check_mod cx hash_iter module = Linted S vs lints ->
  d ∈ lints ->
  ∃ a b ma mb item, (a, b) ∈ S ∧ functions_of module !! a = Some ma ∧
    functions_of module !! b = Some mb ∧ position_number mb < position_number ma ∧
    item ∈ module ∧ is_fn item = true ∧ owner_id item = a ∧
    lint_span d = item_span item ∧
    label d = ("function `" ++ def_path_str cx a ++ "` should be defined before `"
               ++ def_path_str cx b ++ "`")%string.
Proof.
  intros Hiter Hcm Hd. pose proof (linted_elem cx hash_iter module S vs lints) as Hin.
  specialize (Hin Hiter Hcm).
  apply check_mod_linted in Hcm as (_ & _ & ->).
  apply list_elem_of_fmap in Hd as (v & -> & Hv).
  destruct (emit_loop_props ∅ vs) as (_ & _ & _ & Hsub).
  apply Hsub, Hin in Hv as (a & b & Hp & Hv).
  apply violation_of_spec in Hv as (ma & mb & Ha & Hb & Hlt & ->).
  destruct (functions_of_item _ _ _ Ha) as (item & Hitem & Hfn & Ho & Hspan).
  exists a, b, ma, mb, item. split_and!; try done; simpl; by rewrite Hspan.
Qed.

Lemma emit_loop_length warned vs :
  length (emit_loop warned vs) =
  size ((list_to_set (map id_first_fn vs) : gset LocalDefId) ∖ warned).
Proof.
  revert warned. induction vs as [|v vs IH]; intros warned; simpl.
  - assert ((∅ : gset LocalDefId) ∖ warned = ∅) as -> by set_solver.
    by rewrite size_empty.
  - case_decide as Hv.
    + rewrite IH. f_equal. set_solver.
    + simpl. rewrite IH.
      set (R := list_to_set (map id_first_fn vs) : gset LocalDefId).
      assert (({[id_first_fn v]} ∪ R) ∖ warned =
              {[id_first_fn v]} ∪ (R ∖ ({[id_first_fn v]} ∪ warned))) as -> by (apply set_eq; intros x; destruct (decide (x = id_first_fn v)); set_solver).
      rewrite (size_union ({[id_first_fn v]} : gset LocalDefId)) by (clear; set_solver).
      rewrite (size_singleton (C := gset LocalDefId)). lia.
Qed.

Lemma lints_count cx hash_iter module S vs lints :
  valid_iter hash_iter -> check_mod cx hash_iter module = Linted S vs lints ->
  length lints = size (offending_functions (functions_of module) S).
Proof.
  intros Hiter Hcm. pose proof (linted_elem cx hash_iter module S vs lints Hiter Hcm) as Hin.
  apply check_mod_linted in Hcm as (_ & _ & ->).
  rewrite length_map, emit_loop_length, difference_empty_L. f_equal.
  apply set_eq. intros x. rewrite elem_of_list_to_set, list_elem_of_fmap.
  unfold offending_functions. rewrite elem_of_map. split.
  - intros (v & -> & Hv). apply Hin in Hv as (a & b & Hp & Hv).
    apply violation_of_spec in Hv as (ma & mb & Ha & Hb & Hlt & ->).
    exists (a, b). rewrite elem_of_filter. split; [done|]. split; [|done].
    unfold inverted. simpl. rewrite Ha, Hb. by apply bool_decide_eq_true_2.
  - intros ([a b] & -> & Hp). rewrite elem_of_filter in Hp. destruct Hp as [Hinv Hp].
    unfold inverted in Hinv. simpl in Hinv.
    destruct (functions_of module !! a) as [ma|] eqn:Ha; [|done].
    destruct (functions_of module !! b) as [mb|] eqn:Hb; [|done].
    apply bool_decide_eq_true_1 in Hinv.
    exists (violation_record cx a b ma mb). split; [done|]. apply Hin.
    exists a, b. split; [done|]. apply violation_of_spec. exists ma, mb. done.
Qed.

Lemma StronglySorted_weaken {A} (R R' : relation A) (l : list A) :
  (∀ x y, x ∈ l -> y ∈ l -> R x y -> R' x y) ->
  StronglySorted R l -> StronglySorted R' l.
Proof.
  intros HRR' Hl. induction Hl as [|x l Hl IH Hall]; constructor.
  - apply IH. intros y z Hy Hz. apply HRR'; by right.
  - apply Forall_forall. intros y Hy. apply HRR'; [left|by right|].
    by eapply Forall_forall in Hall.
Qed.

Lemma emit_loop_sorted warned vs :
  StronglySorted violation_le vs ->
  StronglySorted (fun v w => violation_le v w ∧ id_first_fn v ≠ id_first_fn w)
    (emit_loop warned vs).
Proof.
  revert warned. induction vs as [|v vs IH]; intros warned Hs; simpl; [constructor|].
  apply StronglySorted_inv in Hs as [Hs Hall].
  case_decide as Hv; [by apply IH|]. constructor; [by apply IH|].
  apply Forall_forall. intros w Hw.
  destruct (emit_loop_props ({[id_first_fn v]} ∪ warned) vs) as (_ & Hpre & _ & Hsub).
  split.
  - apply Hsub in Hw. by eapply Forall_forall in Hall.
  - destruct (Hpre w Hw) as [Hn _]. set_solver.
Qed.

Lemma violation_le_idx v w : violation_le v w -> idx_first_fn v ≤ idx_first_fn w.
Proof.
  unfold violation_le, cmp_violation.
  destruct (Nat.compare_spec (idx_first_fn v) (idx_first_fn w)); [lia|lia|done].
Qed.

Lemma lints_sorted cx hash_iter module S vs lints :
  check_mod cx hash_iter module = Linted S vs lints ->
  lints = map diagnostic_of (emit_loop ∅ vs) ∧
  StronglySorted (fun v w => idx_first_fn v < idx_first_fn w) (emit_loop ∅ vs).
Proof.
  intros Hcm. apply check_mod_linted in Hcm as (_ & Hvs & ->). split; [done|].
  assert (Hs : StronglySorted violation_le vs).
  { rewrite Hvs. apply Sorted_StronglySorted; [apply _|]. apply Sorted_merge_sort, _. }
  apply (StronglySorted_weaken
           (fun v w => violation_le v w ∧ id_first_fn v ≠ id_first_fn w)).
  - intros v w Hv Hw [Hle Hne].
    destruct (emit_loop_props ∅ vs) as (_ & _ & _ & Hsub).
    apply Hsub in Hv, Hw. rewrite Hvs in Hv, Hw.
    apply linted_violation_meta in Hv as (mv & Hmv & Hiv).
    apply linted_violation_meta in Hw as (mw & Hmw & Hiw).
    apply violation_le_idx in Hle.
    destruct (decide (idx_first_fn v = idx_first_fn w)) as [Heq|]; [|lia].
    exfalso. apply Hne. eapply functions_of_inj; [exact Hmv|exact Hmw|lia].
  - by apply emit_loop_sorted.
Qed.

Lemma backward_call_linted cx hash_iter module S vs lints A body c mA mc :
  valid_iter hash_iter -> check_mod cx hash_iter module = Linted S vs lints ->
  find_caller_body module A = Some body ->
  c ∈ collect_callees_in_body cx body (functions_of module) ->
  functions_of module !! A = Some mA -> functions_of module !! c = Some mc ->
  position_number mc < position_number mA -> (c, A) ∉ S ->
  ∃ d, d ∈ lints ∧ lint_span d = span mA.
Proof.
  intros Hiter Hcm Hbody Hc HA Hmc Hlt HcA.
  pose proof (linted_elem cx hash_iter module S vs lints Hiter Hcm) as Hin.
  apply check_mod_linted in Hcm as (HS & _ & ->).
  assert (HAc : (A, c) ∈ S).
  { subst S. by destruct (proj1 (calls_ordered cx module A body Hbody) c Hc). }
  assert (Hv : violation_record cx A c mA mc ∈ vs).
  { apply Hin. exists A, c. split; [done|]. apply violation_of_spec. exists mA, mc. done. }
  destruct (emit_loop_props ∅ vs) as (_ & _ & Hcov & Hsub).
  destruct (Hcov _ Hv) as [Hw|(w & Hw & Hid)]; [by apply not_elem_of_empty in Hw|].
  simpl in Hid. exists (diagnostic_of w). split.
  - apply list_elem_of_fmap. exists w. done.
  - apply Hsub, Hin in Hw as (a & b & _ & Hw).
    apply violation_of_spec in Hw as (ma & mb & Ha & _ & _ & ->).
    simpl in *. subst a. rewrite HA in Ha. by injection Ha as ->.
Qed.

(** ** Properties of the builders, the lookup, the collection and the
    reporting *)

(** [build_caller_callee_constraint] adds [(caller, c)] for exactly the
    callees [c] for which the input set does not already hold
    [(c, caller)], and nothing else. *)
Theorem build_caller_callee_constraint_exact caller callees S a b :
  (a, b) ∈ build_caller_callee_constraint caller callees S <->
  (a, b) ∈ S ∨ (a = caller ∧ b ∈ callees ∧ (b, caller) ∉ S).
Proof. apply build_caller_callee_constraint_iff. Qed.

(** [build_multiple_precedence_rule] only adds pairs: the input set is kept,
    every new pair is [(callees[i], callees[j])] with [i < j], every such
    pair ends up ordered one way or the other, and an ordering already in
    the input set is never reversed. *)
Theorem build_multiple_precedence_rule_bounds callees S :
  S ⊆ build_multiple_precedence_rule callees S ∧
  (∀ a b, (a, b) ∈ build_multiple_precedence_rule callees S ->
     (a, b) ∈ S ∨ ∃ i j, i < j ∧ callees !! i = Some a ∧ callees !! j = Some b) ∧
  (∀ i j a b, i < j -> callees !! i = Some a -> callees !! j = Some b ->
     (a, b) ∈ build_multiple_precedence_rule callees S ∨
     (b, a) ∈ build_multiple_precedence_rule callees S) ∧
  (∀ a b, (b, a) ∈ S -> (a, b) ∉ S ->
     (a, b) ∉ build_multiple_precedence_rule callees S).
Proof.
  split_and!.
  - apply guarded_steps_subseteq, build_multiple_precedence_rule_steps.
  - intros a b. apply build_multiple_precedence_rule_elem.
  - intros i j a b. apply build_multiple_precedence_rule_decides.
  - intros a b Hba Hab.
    assert (H : (b, a) ∈ build_multiple_precedence_rule callees S ∧
                (a, b) ∉ build_multiple_precedence_rule callees S).
    { eapply (guarded_steps_preserve (fun s => (b, a) ∈ s ∧ (a, b) ∉ s));
        [|apply build_multiple_precedence_rule_steps|done].
      intros s s' Hs Hstep. by eapply guarded_step_keeps_winner. }
    apply H.
Qed.

(** [find_caller_body] returns the body of the first [fn] item owned by
    the given identity, and [None] exactly when no [fn] item of the module
    is owned by it. *)
Theorem find_caller_body_first_fn_item module caller_id :
  (∀ body, find_caller_body module caller_id = Some body <->
     ∃ pre item post, module = pre ++ item :: post ∧ kind item = Fn body ∧
       owner_id item = caller_id ∧
       ∀ it, it ∈ pre -> is_fn it = true -> owner_id it ≠ caller_id) ∧
  (find_caller_body module caller_id = None <-> caller_id ∉ def_order_of module).
Proof.
  split; [intros body; apply find_caller_body_Some|apply find_caller_body_None].
Qed.

(** The collection loop of [check_mod] gives metadata to exactly the
    functions of [def_order], with pairwise distinct positions below the
    number of [fn] items, each carrying the span of a [fn] item owned by
    that function. *)
Theorem collected_functions_invariant module :
  (∀ k, is_Some (functions_of module !! k) <-> k ∈ def_order_of module) ∧
  (∀ k m, functions_of module !! k = Some m ->
     position_number m < length (def_order_of module)) ∧
  (∀ k1 k2 m1 m2, functions_of module !! k1 = Some m1 ->
     functions_of module !! k2 = Some m2 ->
     position_number m1 = position_number m2 -> k1 = k2) ∧
  (∀ k m, functions_of module !! k = Some m ->
     ∃ item, item ∈ module ∧ is_fn item = true ∧ owner_id item = k ∧
       span m = item_span item).
Proof.
  split_and!.
  - apply functions_of_dom.
  - intros k m Hk. rewrite length_def_order_of.
    pose proof (collect_functions_inv module) as Hinv. unfold functions_of in Hk.
    destruct (collect_functions module) as [[d fs] idx]. simpl in *.
    destruct Hinv as (_ & Hlt & _). by apply (Hlt k).
  - apply functions_of_inj.
  - apply functions_of_item.
Qed.

(** When the [fn] items have distinct owners, the [n]-th [fn] item of the
    module gets position [n] and its own span. *)
Theorem collected_positions_exact module n item :
  NoDup (def_order_of module) ->
  List.filter is_fn module !! n = Some item ->
  functions_of module !! owner_id item =
    Some {| position_number := n; span := item_span item |}.
Proof.
  intros Hnd Hn. unfold functions_of, collect_functions.
  apply (collect_positions module ([], ∅, 0)); [|done].
  simpl. by rewrite <-def_order_of_spec.
Qed.

Lemma collected_positions_exact_witness :
  functions_of scenario3 !! owner_id (fn_item 1 1) =
    Some {| position_number := 1; span := item_span (fn_item 1 1) |}.
Proof.
  apply (collected_positions_exact scenario3 1 (fn_item 1 1)).
  - apply (bool_decide_eq_true_1 (NoDup (def_order_of scenario3))).
    vm_compute. reflexivity.
  - vm_compute. reflexivity.
Defined.

(** Items other than functions play no part: [check_mod] gives the same
    outcome on the module with its non-[fn] items removed. *)
Theorem check_mod_ignores_non_fn_items cx hash_iter module :
  check_mod cx hash_iter module = check_mod cx hash_iter (List.filter is_fn module).
Proof. apply check_mod_filter. Qed.

(** Every pair of the constraint set comes from a function of the scope:
    either it calls the second element, or it calls both elements, the
    first one first. *)
Theorem constraint_origin cx module a b :
  (a, b) ∈ build_constraints cx module ->
  ∃ A body, A ∈ def_order_of module ∧ find_caller_body module A = Some body ∧
    ((A = a ∧ b ∈ collect_callees_in_body cx body (functions_of module)) ∨
     ∃ i j, i < j ∧
       collect_callees_in_body cx body (functions_of module) !! i = Some a ∧
       collect_callees_in_body cx body (functions_of module) !! j = Some b).
Proof.
  intros Hab. destruct (build_constraints_origin cx module a b Hab)
    as (A & body & Hbody & Hor).
  exists A, body. split_and!; [|done|done].
  by eapply find_caller_body_in_def_order.
Qed.

Lemma constraint_origin_witness :
  ∃ A body, A ∈ def_order_of scenario3 ∧ find_caller_body scenario3 A = Some body ∧
    ((A = 2 ∧ 0 ∈ collect_callees_in_body scenario3_cx body (functions_of scenario3)) ∨
     ∃ i j, i < j ∧
       collect_callees_in_body scenario3_cx body (functions_of scenario3) !! i = Some 2 ∧
       collect_callees_in_body scenario3_cx body (functions_of scenario3) !! j = Some 0).
Proof.
  apply (constraint_origin scenario3_cx scenario3 2 0).
  apply (bool_decide_eq_true_1 ((2, 0) ∈ build_constraints scenario3_cx scenario3)).
  vm_compute. reflexivity.
Defined.

(** For every function with a body, the final constraint set orders it
    with respect to each function it calls, and orders every two functions
    it calls with respect to each other. *)
Theorem calls_and_siblings_ordered cx module A body :
  find_caller_body module A = Some body ->
  (∀ c, c ∈ collect_callees_in_body cx body (functions_of module) ->
     (A, c) ∈ build_constraints cx module ∨ (c, A) ∈ build_constraints cx module) ∧
  (∀ i j a b, i < j ->
     collect_callees_in_body cx body (functions_of module) !! i = Some a ->
     collect_callees_in_body cx body (functions_of module) !! j = Some b ->
     (a, b) ∈ build_constraints cx module ∨ (b, a) ∈ build_constraints cx module).
Proof. apply calls_ordered. Qed.

Lemma calls_and_siblings_ordered_witness :
  find_caller_body scenario3 2 = Some 2 ∧
  (∀ c, c ∈ collect_callees_in_body scenario3_cx 2 (functions_of scenario3) ->
     (2, c) ∈ build_constraints scenario3_cx scenario3 ∨
     (c, 2) ∈ build_constraints scenario3_cx scenario3) ∧
  (∀ i j a b, i < j ->
     collect_callees_in_body scenario3_cx 2 (functions_of scenario3) !! i = Some a ->
     collect_callees_in_body scenario3_cx 2 (functions_of scenario3) !! j = Some b ->
     (a, b) ∈ build_constraints scenario3_cx scenario3 ∨
     (b, a) ∈ build_constraints scenario3_cx scenario3).
Proof.
  assert (Hb : find_caller_body scenario3 2 = Some 2) by reflexivity.
  split; [exact Hb|]. exact (calls_and_siblings_ordered scenario3_cx scenario3 2 2 Hb).
Defined.

(** When [check_mod] reaches its reporting loop, it emits no lint exactly
    when every pair [(a, b)] of the constraint set has [a] declared no
    later than [b]. *)
Theorem no_lint_iff_order_respected cx hash_iter module S vs lints :
  valid_iter hash_iter -> check_mod cx hash_iter module = Linted S vs lints ->
  (lints = [] <-> ∀ a b ma mb, (a, b) ∈ S -> functions_of module !! a = Some ma ->
     functions_of module !! b = Some mb -> position_number ma ≤ position_number mb).
Proof. apply lints_nil_iff. Qed.

Lemma no_lint_iff_order_respected_witness :
  ∃ S vs lints, check_mod scenario3_cx elements scenario3 = Linted S vs lints ∧
  (lints = [] <-> ∀ a b ma mb, (a, b) ∈ S -> functions_of scenario3 !! a = Some ma ->
     functions_of scenario3 !! b = Some mb -> position_number ma ≤ position_number mb).
Proof.
  destruct (check_mod scenario3_cx elements scenario3) as [| |S vs lints] eqn:E;
    [vm_compute in E; discriminate|vm_compute in E; discriminate|].
  exists S, vs, lints. split; [done|].
  apply (no_lint_iff_order_respected scenario3_cx elements scenario3 S vs lints);
    [intros ?; reflexivity|exact E].
Defined.

(** No false alarm on an ordered module: when every function is declared
    no later than the functions it calls, and the functions it calls are
    declared in the order it first calls them, [check_mod] does not panic
    and emits no lint. *)
Theorem well_ordered_module_not_linted cx hash_iter module :
  valid_iter hash_iter ->
  (∀ A body mA c mc, find_caller_body module A = Some body ->
     c ∈ collect_callees_in_body cx body (functions_of module) ->
     functions_of module !! A = Some mA -> functions_of module !! c = Some mc ->
     position_number mA ≤ position_number mc) ->
  (∀ A body i j a b ma mb, find_caller_body module A = Some body -> i < j ->
     collect_callees_in_body cx body (functions_of module) !! i = Some a ->
     collect_callees_in_body cx body (functions_of module) !! j = Some b ->
     functions_of module !! a = Some ma -> functions_of module !! b = Some mb ->
     position_number ma ≤ position_number mb) ->
  check_mod cx hash_iter module ≠ Panicked ∧
  emitted_lints (check_mod cx hash_iter module) = [].
Proof.
  intros Hiter Hcall Hsib.
  destruct (check_mod_cases cx hash_iter module) as [[-> _]|(vs & lints & Hcm)];
    [done|].
  rewrite Hcm. split; [done|]. simpl.
  apply (lints_nil_iff cx hash_iter module _ vs lints Hiter Hcm).
  intros a b ma mb Hab Ha Hb.
  destruct (build_constraints_origin cx module a b Hab)
    as (A & body & Hbody & [[<- Hc]|(i & j & Hij & Hi & Hj)]); eauto.
Qed.

Lemma well_ordered_module_not_linted_witness :
  check_mod ordered_cx elements ordered ≠ Panicked ∧
  emitted_lints (check_mod ordered_cx elements ordered) = [].
Proof.
  assert (Hcs : ∀ A body, find_caller_body ordered A = Some body ->
    A = body ∧ collect_callees_in_body ordered_cx body (functions_of ordered) =
      match body with 0 => [1; 2] | 1 => [2] | _ => [] end).
  { intros A body Hb. destruct A as [|[|[|A]]]; simpl in Hb;
      try discriminate; injection Hb as <-; split; try done;
      vm_compute; reflexivity. }
  assert (Hpos : ∀ k m, functions_of ordered !! k = Some m -> position_number m = k).
  { intros k m Hk.
    assert (Hd : k ∈ [0; 1; 2]).
    { change [0; 1; 2] with (def_order_of ordered). apply functions_of_dom. eauto. }
    repeat (apply elem_of_cons in Hd as [->|Hd]; [vm_compute in Hk; by injection Hk as <-|]).
    by apply elem_of_nil in Hd. }
  apply (well_ordered_module_not_linted ordered_cx elements ordered).
  - intros S. reflexivity.
  - intros A body mA c mc Hb Hc HA Hmc.
    destruct (Hcs A body Hb) as [<- Hcs']. rewrite Hcs' in Hc.
    apply Hpos in HA, Hmc. rewrite HA, Hmc.
    destruct A as [|[|A]]; simpl in Hc;
      repeat (apply elem_of_cons in Hc as [->|Hc]; [lia|]); by apply elem_of_nil in Hc.
  - intros A body i j a b ma mb Hb Hij Hi Hj Ha Hmb.
    destruct (Hcs A body Hb) as [<- Hcs']. rewrite Hcs' in Hi, Hj.
    apply Hpos in Ha, Hmb. rewrite Ha, Hmb.
    apply lookup_lt_Some in Hj as Hjlen.
    destruct A as [|[|A]]; simpl in Hjlen; try lia;
      destruct i as [|[|i]]; destruct j as [|[|j]]; simpl in Hi, Hj; simplify_eq; lia.
Defined.

(** Every lint is attached to the span of a [fn] item of the module owned
    by a function [a], for a pair [(a, b)] of the constraint set where [b]
    is declared before [a], and its label names [a] and [b]. *)
Theorem lint_points_at_offending_fn cx hash_iter module S vs lints d :
  valid_iter hash_iter -> check_mod cx hash_iter module = Linted S vs lints ->
  d ∈ lints ->
  ∃ a b ma mb item, (a, b) ∈ S ∧ functions_of module !! a = Some ma ∧
    functions_of module !! b = Some mb ∧ position_number mb < position_number ma ∧
    item ∈ module ∧ is_fn item = true ∧ owner_id item = a ∧
    lint_span d = item_span item ∧
    label d = ("function `" ++ def_path_str cx a ++ "` should be defined before `"
               ++ def_path_str cx b ++ "`")%string.
Proof. apply lint_origin. Qed.

Lemma lint_points_at_offending_fn_witness :
  ∃ S vs lints d, check_mod scenario3_cx elements scenario3 = Linted S vs lints ∧
  d ∈ lints ∧
  ∃ a b ma mb item, (a, b) ∈ S ∧ functions_of scenario3 !! a = Some ma ∧
    functions_of scenario3 !! b = Some mb ∧ position_number mb < position_number ma ∧
    item ∈ scenario3 ∧ is_fn item = true ∧ owner_id item = a ∧
    lint_span d = item_span item ∧
    label d = ("function `" ++ def_path_str scenario3_cx a ++
               "` should be defined before `" ++ def_path_str scenario3_cx b ++ "`")%string.
Proof.
  destruct (check_mod scenario3_cx elements scenario3) as [| |S vs lints] eqn:E;
    [vm_compute in E; discriminate|vm_compute in E; discriminate|].
  assert (Hl : lints ≠ []).
  { intros ->. vm_compute in E. discriminate. }
  destruct lints as [|d rest]; [done|].
  exists S, vs, (d :: rest), d. split; [done|]. split; [left|].
  apply (lint_points_at_offending_fn scenario3_cx elements scenario3 S vs (d :: rest) d);
    [intros ?; reflexivity|exact E|left].
Defined.

(** [check_mod] emits exactly as many lints as there are functions [a]
    with a pair [(a, b)] in the constraint set where [b] is declared before
    [a]. *)
Theorem lint_count_is_offenders cx hash_iter module S vs lints :
  valid_iter hash_iter -> check_mod cx hash_iter module = Linted S vs lints ->
  length lints = size (offending_functions (functions_of module) S).
Proof. apply lints_count. Qed.

Lemma lint_count_is_offenders_witness :
  ∃ S vs lints, check_mod scenario3_cx elements scenario3 = Linted S vs lints ∧
  length lints = size (offending_functions (functions_of scenario3) S).
Proof.
  destruct (check_mod scenario3_cx elements scenario3) as [| |S vs lints] eqn:E;
    [vm_compute in E; discriminate|vm_compute in E; discriminate|].
  exists S, vs, lints. split; [done|].
  apply (lint_count_is_offenders scenario3_cx elements scenario3 S vs lints);
    [intros ?; reflexivity|exact E].
Defined.

(** The lints are emitted in strictly increasing declaration position of
    the function they are attached to. *)
Theorem lints_in_declaration_order cx hash_iter module S vs lints :
  check_mod cx hash_iter module = Linted S vs lints ->
  lints = map diagnostic_of (emit_loop ∅ vs) ∧
  StronglySorted (fun v w => idx_first_fn v < idx_first_fn w) (emit_loop ∅ vs).
Proof. apply lints_sorted. Qed.

Lemma lints_in_declaration_order_witness :
  ∃ S vs lints, check_mod scenario3_cx elements scenario3 = Linted S vs lints ∧
  lints = map diagnostic_of (emit_loop ∅ vs) ∧
  StronglySorted (fun v w => idx_first_fn v < idx_first_fn w) (emit_loop ∅ vs).
Proof.
  destruct (check_mod scenario3_cx elements scenario3) as [| |S vs lints] eqn:E;
    [vm_compute in E; discriminate|vm_compute in E; discriminate|].
  exists S, vs, lints. split; [done|].
  exact (lints_in_declaration_order scenario3_cx elements scenario3 S vs lints E).
Defined.

(** A function that calls a function declared before it is reported, at
    its own span, unless the constraint set holds the reverse pair (put
    there by an earlier caller). *)
Theorem backward_call_is_linted cx hash_iter module S vs lints A body c mA mc :
  valid_iter hash_iter -> check_mod cx hash_iter module = Linted S vs lints ->
  find_caller_body module A = Some body ->
  c ∈ collect_callees_in_body cx body (functions_of module) ->
  functions_of module !! A = Some mA -> functions_of module !! c = Some mc ->
  position_number mc < position_number mA -> (c, A) ∉ S ->
  ∃ d, d ∈ lints ∧ lint_span d = span mA.
Proof. apply backward_call_linted. Qed.

Lemma backward_call_is_linted_witness :
  ∃ S vs lints mA, check_mod scenario3_cx elements scenario3 = Linted S vs lints ∧
  functions_of scenario3 !! 2 = Some mA ∧
  ∃ d, d ∈ lints ∧ lint_span d = span mA.
Proof.
  destruct (check_mod scenario3_cx elements scenario3) as [| |S vs lints] eqn:E;
    [vm_compute in E; discriminate|vm_compute in E; discriminate|].
  destruct (functions_of scenario3 !! 2) as [mA|] eqn:HA; [|vm_compute in HA; discriminate].
  destruct (functions_of scenario3 !! 1) as [mc|] eqn:Hc; [|vm_compute in Hc; discriminate].
  exists S, vs, lints, mA. split; [done|]. split; [done|].
  pose proof E as E'. apply check_mod_linted in E' as (HS & _ & _).
  apply (backward_call_is_linted scenario3_cx elements scenario3 S vs lints 2 2 1 mA mc).
  - intros ?. reflexivity.
  - exact E.
  - reflexivity.
  - apply (bool_decide_eq_true_1
      (1 ∈ collect_callees_in_body scenario3_cx 2 (functions_of scenario3))).
    vm_compute. reflexivity.
  - exact HA.
  - exact Hc.
  - vm_compute in HA, Hc. injection HA as <-. injection Hc as <-. simpl. lia.
  - rewrite HS. apply (bool_decide_eq_false_1
      ((1, 2) ∈ build_constraints scenario3_cx scenario3)).
    vm_compute. reflexivity.
Defined.

Lemma build_caller_callee_constraint_noop caller callees s :
  (∀ c, c ∈ callees -> (caller, c) ∈ s ∨ (c, caller) ∈ s) ->
  build_caller_callee_constraint caller callees s = s.
Proof.
  intros Hs. unfold build_caller_callee_constraint.
  apply (fold_left_ind (fun t => t = s)); [done|]. intros t x Hx ->.
  case_decide; [done|]. destruct (Hs x Hx); [set_solver|done].
Qed.

Lemma build_multiple_precedence_rule_noop callees s :
  (∀ i j a b, i < j -> callees !! i = Some a -> callees !! j = Some b ->
     (a, b) ∈ s ∨ (b, a) ∈ s) ->
  build_multiple_precedence_rule callees s = s.
Proof.
  intros Hs. unfold build_multiple_precedence_rule.
  apply (fold_left_ind (fun t => t = s)); [done|]. intros t i _ ->.
  apply (fold_left_ind (fun t => t = s)); [done|]. intros t j Hj ->.
  apply elem_of_seq in Hj.
  destruct (callees !! i) as [a|] eqn:Ha, (callees !! j) as [b|] eqn:Hb; try done.
  case_decide; [done|]. destruct (Hs i j a b) as [Hab|Hba]; [lia|done|done|set_solver|done].
Qed.

(** Processing the same caller a second time adds nothing: one pass of
    both builders already orders everything they look at. *)
Theorem process_caller_idempotent cx module functions S caller :
  process_caller cx module functions (process_caller cx module functions S caller) caller =
  process_caller cx module functions S caller.
Proof.
  unfold process_caller. destruct (find_caller_body module caller) as [body|]; [|done].
  set (cs := collect_callees_in_body cx body functions).
  set (T := build_multiple_precedence_rule cs (build_caller_callee_constraint caller cs S)).
  assert (Hsub : build_caller_callee_constraint caller cs S ⊆ T)
    by apply guarded_steps_subseteq, build_multiple_precedence_rule_steps.
  rewrite build_caller_callee_constraint_noop.
  - apply build_multiple_precedence_rule_noop. intros i j a b Hij Ha Hb.
    apply (build_multiple_precedence_rule_decides cs _ i j a b Hij Ha Hb).
  - intros c Hc. destruct (build_caller_callee_constraint_orders caller cs S c Hc);
      [left|right]; by apply Hsub.
Qed.
